(** * TypeScript-STL: Vector and the tree-backed sets

    A shallow embedding of [std.Vector] (Vector.ts) and of [std.TreeSet] /
    [std.TreeMultiSet] (TreeSet.ts, TreeMultiSet.ts) together with the
    properties stated about them.

    Conventions.
    - JavaScript numbers used as indices and as set elements are integers
      here ([Z]).
    - A method that may throw returns a [result]; a method containing a loop
      over iterators whose termination depends on its arguments takes a
      [fuel] and returns [option (result _)], [None] meaning the fuel ran out.
    - Mutation of [this] is explicit state passing: a method returns the new
      object next to its return value.
    - [class Vector<T> extends Array<T>] is a different object under the two
      ways of compiling it.  Where the class is emitted as a class, a Vector
      is an exotic Array object: module [Vector].  Where it is emitted for
      ES5, [Array.call(this)] leaves [this] an ordinary object behind whose
      prototype stands [Array.prototype]: module [ArrayLike].  The two agree
      on the elements; they differ in what a store at an index that is not
      an element does to [length]. *)

From Stdlib Require Import ZArith List Bool String Lia.
Import ListNotations.
Open Scope Z_scope.

(* ===================================================================== *)
(** * Exceptions *)
(* ===================================================================== *)

(** [std.OutOfRange] is the only exception the modelled code throws. *)
Inductive Exception : Type :=
| OutOfRange (what : string).

Inductive result (A : Type) : Type :=
| Ok (a : A)
| Throw (e : Exception).
Arguments Ok {A} a.
Arguments Throw {A} e.

Definition is_out_of_range {A} (r : result A) : bool :=
  match r with
  | Throw (OutOfRange _) => true
  | Ok _ => false
  end.

(** Sequencing of computations that may throw or run out of fuel. *)
Definition bindM {A B} (c : option (result A)) (k : A -> option (result B))
  : option (result B) :=
  match c with
  | None => None
  | Some (Throw e) => Some (Throw e)
  | Some (Ok a) => k a
  end.

Definition retM {A} (a : A) : option (result A) := Some (Ok a).

Declare Scope js_scope.
Delimit Scope js_scope with js.
Notation "x <- c ;; k" := (bindM c (fun x => k))
  (at level 61, c at next level, right associativity) : js_scope.

(* ===================================================================== *)
(** * Vector.ts *)
(* ===================================================================== *)

Module Vector.
Section Defs.
Context {T : Type}.

(** The JavaScript value [undefined], which every element type contains:
    it is what reading a missing array slot or property yields. *)
Variable undefined : T.

(** [Vector<T> extends Array<T>], as an exotic Array object.  [items] are
    the array elements at the indices [0 .. length-1].  [props] holds the
    properties stored under a negative integer key: [this[-1] = x] on a
    JavaScript array does not touch the elements or [length], it defines
    the property ["-1"]. *)
Record Vector : Type := mkVector {
  items : list T;
  props : list (Z * T)
}.

Definition empty_vector : Vector := mkVector [] [].

Definition length (v : Vector) : Z := Z.of_nat (List.length (items v)).

Fixpoint prop_get (ps : list (Z * T)) (key : Z) : T :=
  match ps with
  | [] => undefined
  | (k, x) :: rest => if k =? key then x else prop_get rest key
  end.

(** [this[index]] *)
Definition get (v : Vector) (index : Z) : T :=
  if index <? 0 then prop_get (props v) index
  else nth (Z.to_nat index) (items v) undefined.

Fixpoint replace_nth (n : nat) (x : T) (l : list T) : list T :=
  match l, n with
  | [], _ => []
  | _ :: r, O => x :: r
  | y :: r, S n' => y :: replace_nth n' x r
  end.

(** [this[index] = val].  Below [length] the store replaces an element,
    under a negative index it defines a property; both are the same on
    every object.  At or past [length] the store extends an exotic Array
    object, the slots in between reading as [undefined]; what it does to
    an ordinary array-like object is [ArrayLike.put]. *)
Definition put (v : Vector) (index : Z) (val : T) : Vector :=
  if index <? 0 then mkVector (items v) ((index, val) :: props v)
  else if index <? length v
    then mkVector (replace_nth (Z.to_nat index) val (items v)) (props v)
    else mkVector
           (items v ++ repeat undefined (Z.to_nat (index - length v)) ++ [val])
           (props v).

(** [super.push(val)] and [super.push(...array)] *)
Definition push (v : Vector) (val : T) : Vector :=
  mkVector (items v ++ [val]) (props v).

Definition push_all (v : Vector) (array : list T) : Vector :=
  mkVector (items v ++ array) (props v).

(** [super.splice(start)] and [super.splice(start, deleteCount)]: the
    vector without the removed elements, and the removed elements. *)
Definition splice_start (v : Vector) (start : Z) : nat :=
  Z.to_nat (if start <? 0 then Z.max (length v + start) 0
            else Z.min start (length v)).

Definition splice (v : Vector) (start : Z) : Vector * list T :=
  let s := splice_start v start in
  (mkVector (firstn s (items v)) (props v), skipn s (items v)).

Definition splice_count (v : Vector) (start count : Z) : Vector * list T :=
  let s := splice_start v start in
  let n := Z.to_nat (Z.min (Z.max count 0) (length v - Z.of_nat s)) in
  (mkVector (firstn s (items v) ++ skipn (s + n) (items v)) (props v),
   firstn n (skipn s (items v))).

(** ** Accessors *)

Definition size (v : Vector) : Z := length v.

Definition capacity (v : Vector) : Z := length v.

Definition empty (v : Vector) : bool := length v =? 0.

Definition at_ (v : Vector) (index : Z) : result T :=
  if index <? size v
  then Ok (get v index)
  else Throw (OutOfRange "Target index is greater than Vector's size.").

Definition set (v : Vector) (index : Z) (val : T) : result (Vector * T) :=
  if index >? length v
  then Throw (OutOfRange "Target index is greater than Vector's size.")
  else
    let prev := get v index in
    Ok (put v index val, prev).

Definition front (v : Vector) : result T := at_ v 0.

Definition back (v : Vector) : result T := at_ v (length v - 1).

(** ** VectorIterator

    An iterator is a pair of its source vector and an index; [-1] is the
    index of [end()].  The source is a reference: here every function
    that follows an iterator receives the current state of the iterator's
    source as an argument, and [equal_to] is used between iterators of one
    source only, where it compares the indices. *)
Record VectorIterator : Type := Iter { index : Z }.

Definition end_ (v : Vector) : VectorIterator := Iter (-1).

Definition begin (v : Vector) : VectorIterator :=
  if empty v then end_ v else Iter 0.

Definition value (source : Vector) (it : VectorIterator) : result T :=
  at_ source (index it).

Definition next (source : Vector) (it : VectorIterator) : VectorIterator :=
  if index it >=? size source - 1
  then end_ source
  else Iter (index it + 1).

Definition equal_to (it obj : VectorIterator) : bool :=
  index it =? index obj.

(** ** Erase *)

Definition erase_by_range (v : Vector) (first last : VectorIterator)
  : Vector * VectorIterator :=
  if index first =? -1 then (v, first)
  else if index last =? -1
    then (fst (splice v (index first)), end_ v)
    else (fst (splice_count v (index first) (index last - index first)), first).

(** [erase(first, last)] on plain (not reverse) iterators. *)
Definition erase (v : Vector) (first last : VectorIterator)
  : Vector * VectorIterator :=
  erase_by_range v first last.

Definition clear (v : Vector) : Vector :=
  fst (erase v (begin v) (end_ v)).

(** ** Insert *)

(** The loop [for (; !first.equal_to(last); first = first.next())
    super.push(first.value);] over iterators of [source], a vector object
    other than the one being pushed to. *)
Fixpoint push_range (fuel : nat) (source : Vector)
    (first last : VectorIterator) (v : Vector) : option (result Vector) :=
  if equal_to first last then retM v
  else
    match fuel with
    | O => None
    | S fuel' =>
        match value source first with
        | Throw e => Some (Throw e)
        | Ok x => push_range fuel' source (next source first) last (push v x)
        end
    end.

Definition insert_by_range (fuel : nat) (v : Vector)
    (position : VectorIterator)
    (source : Vector) (first last : VectorIterator)
  : option (result (Vector * VectorIterator)) :=
  if index position =? -1 then
    (v' <- push_range fuel source first last v ;;
     retM (v', begin v'))%js
  else
    let '(v0, spliced_array) := splice v (index position) in
    (v' <- push_range fuel source first last v0 ;;
     retM (push_all v' spliced_array, position))%js.

(** [insert(position, begin, end)]: three arguments, the second one not a
    number. *)
Definition insert (fuel : nat) (v : Vector) (position : VectorIterator)
    (source : Vector) (first last : VectorIterator)
  : option (result (Vector * VectorIterator)) :=
  insert_by_range fuel v position source first last.

(** [assign(begin, end)] *)
Definition assign (fuel : nat) (v : Vector)
    (source : Vector) (first second : VectorIterator)
  : option (result Vector) :=
  let v0 := clear v in
  (r <- insert fuel v0 (end_ v0) source first second ;;
   retM (fst r))%js.

(** [new Vector(begin, end)] *)
Definition construct_from_range (fuel : nat)
    (source : Vector) (first last : VectorIterator)
  : option (result Vector) :=
  assign fuel empty_vector source first last.

(** ** Swap

    [this] and [obj] are two vector objects; the result is the pair of
    their new states. *)
Definition swap (fuel : nat) (this obj : Vector)
  : option (result (Vector * Vector)) :=
  (supplement <- construct_from_range fuel this (begin this) (end_ this) ;;
   this' <- assign fuel this obj (begin obj) (end_ obj) ;;
   obj' <- assign fuel obj supplement (begin supplement) (end_ supplement) ;;
   retM (this', obj'))%js.

(** Forward iteration, [for (it = v.begin(); !it.equal_to(v.end());
    it = it.next())], collecting [it.value]. *)
Fixpoint collect (fuel : nat) (source : Vector)
    (first last : VectorIterator) (acc : list T) : option (result (list T)) :=
  if equal_to first last then retM acc
  else
    match fuel with
    | O => None
    | S fuel' =>
        match value source first with
        | Throw e => Some (Throw e)
        | Ok x => collect fuel' source (next source first) last (acc ++ [x])
        end
    end.

Definition forward (fuel : nat) (v : Vector) : option (result (list T)) :=
  collect fuel v (begin v) (end_ v) [].

(** ** The other constructors *)

(** [new Vector(array)]: [super.push(...array)] on the new, empty vector. *)
Definition construct_from_array (array : list T) : Vector :=
  push_all empty_vector array.

(** [new Vector(container)], the copy constructor:
    [this.assign(container.begin(), container.end())]. *)
Definition construct_from_container (fuel : nat) (container : Vector)
  : option (result Vector) :=
  assign fuel empty_vector container (begin container) (end_ container).

(** ** Capacity and the end of the vector *)

(** [reserve(size)]: "NOTHING TO DO ESPECIALLY". *)
Definition reserve (v : Vector) (size : Z) : Vector := v.

Definition push_back (v : Vector) (val : T) : Vector := push v val.

(** ** Insertion of a value *)

(** The loop [for (let i = 0; i < n; i++) super.push(val);], which runs
    [n] times for a count [n >= 0] and not at all for a negative one. *)
Fixpoint push_repeat (n : nat) (v : Vector) (val : T) : Vector :=
  match n with
  | O => v
  | S n' => push_repeat n' (push v val) val
  end.

Definition insert_by_repeating_val (v : Vector) (position : VectorIterator)
    (n : Z) (val : T) : Vector * VectorIterator :=
  if index position =? -1 then
    let v' := push_repeat (Z.to_nat n) v val in
    (v', begin v')
  else
    let '(v0, spliced_array) := splice v (index position) in
    let v' := push_repeat (Z.to_nat n) v0 val in
    (push_all v' spliced_array, position).

Definition insert_by_val (v : Vector) (position : VectorIterator) (val : T)
  : Vector * VectorIterator :=
  insert_by_repeating_val v position 1 val.

(** The index in front of which an insertion at [position] puts the new
    elements: the index of [position], the old length for [end()]. *)
Definition insertion_point (v : Vector) (position : VectorIterator) : nat :=
  if index position =? -1
  then List.length (items v)
  else Z.to_nat (index position).

(** [insert(position, val)]: two arguments. *)
Definition insert_val (v : Vector) (position : VectorIterator) (val : T)
  : Vector * VectorIterator :=
  insert_by_val v position val.

(** [insert(position, n, val)]: three arguments, the second one a
    number. *)
Definition insert_repeat (v : Vector) (position : VectorIterator)
    (n : Z) (val : T) : Vector * VectorIterator :=
  insert_by_repeating_val v position n val.

(** [assign(n, val)] *)
Definition assign_repeat (v : Vector) (n : Z) (val : T) : Vector :=
  let v0 := clear v in
  fst (insert_repeat v0 (end_ v0) n val).

(** [new Vector(n, val)] *)
Definition construct_repeat (n : Z) (val : T) : Vector :=
  assign_repeat empty_vector n val.

(** ** More of VectorIterator *)

Definition prev (source : Vector) (it : VectorIterator) : VectorIterator :=
  if index it =? -1 then Iter (size source - 1)
  else if index it - 1 <? 0 then end_ source
  else Iter (index it - 1).

Definition advance (source : Vector) (it : VectorIterator) (n : Z)
  : VectorIterator :=
  let newIndex := index it + n in
  if (newIndex <? 0) || (newIndex >=? size source)
  then end_ source
  else Iter newIndex.

(** The setter [set value(val)]: [this.vector.set(this.index_, val)]. *)
Definition set_value (source : Vector) (it : VectorIterator) (val : T)
  : result Vector :=
  match set source (index it) val with
  | Ok (source', _) => Ok source'
  | Throw e => Throw e
  end.

(** [it.swap(obj)] for two iterators of one vector:
    [[this.value, obj.value] = [obj.value, this.value]].  The right-hand
    side is read first, [obj.value] before [this.value]; then [this.value]
    is written, then [obj.value]. *)
Definition iterator_swap (source : Vector) (it obj : VectorIterator)
  : result Vector :=
  match value source obj with
  | Throw e => Throw e
  | Ok from_obj =>
      match value source it with
      | Throw e => Throw e
      | Ok from_it =>
          match set_value source it from_obj with
          | Throw e => Throw e
          | Ok source' => set_value source' obj from_it
          end
      end
  end.

(** ** Erasure of one element *)

(** [erase(position)]: the second parameter defaults to [first.next()]. *)
Definition erase_at (v : Vector) (position : VectorIterator)
  : Vector * VectorIterator :=
  erase v position (next v position).

Definition pop_back (v : Vector) : Vector :=
  fst (erase_at v (prev v (end_ v))).

End Defs.
End Vector.

(* ===================================================================== *)
(** * Vector.ts on an ordinary array-like object *)
(* ===================================================================== *)

Module ArrayLike.
Section Defs.
Context {T : Type}.
Variable undefined : T.

(** A [Vector] as the ES5 emit of [class Vector<T> extends Array<T>] makes
    it: [_super.call(this)] returns a new array and leaves [this] an
    ordinary object, which finds the methods of [Array.prototype] on its
    prototype chain.  [length] is then an ordinary property: [super.push]
    and [super.splice], which are generic, write it, a store [this[index] =
    val] does not.  [own] holds the properties stored under an integer
    key, the latest store first. *)
Record Vector : Type := mkObject {
  length : Z;
  own : list (Z * T)
}.

(** [new Vector()]: no own property; [this.length] reads [0] from
    [Array.prototype]. *)
Definition empty_vector : Vector := mkObject 0 [].

(** [this[index]] *)
Definition get (v : Vector) (index : Z) : T :=
  Vector.prop_get undefined (own v) index.

(** [this[index] = val]: the property is defined or replaced; [length]
    stays as it is. *)
Definition put (v : Vector) (index : Z) (val : T) : Vector :=
  mkObject (length v) ((index, val) :: own v).

(** [super.push(val)], the generic [Array.prototype.push]: it stores [val]
    under the key [length] and writes [length + 1] to [length]. *)
Definition push (v : Vector) (val : T) : Vector :=
  mkObject (length v + 1) ((length v, val) :: own v).

(** [super.push(...array)] *)
Definition push_all (v : Vector) (array : list T) : Vector :=
  fold_left push array v.

(** [new Vector(array)] *)
Definition construct_from_array (array : list T) : Vector :=
  push_all empty_vector array.

Definition size (v : Vector) : Z := length v.

Definition at_ (v : Vector) (index : Z) : result T :=
  if index <? size v
  then Ok (get v index)
  else Throw (OutOfRange "Target index is greater than Vector's size.").

Definition set (v : Vector) (index : Z) (val : T) : result (Vector * T) :=
  if index >? length v
  then Throw (OutOfRange "Target index is greater than Vector's size.")
  else
    let prev := get v index in
    Ok (put v index val, prev).

End Defs.
End ArrayLike.

(* ===================================================================== *)
(** * Comparison functions *)
(* ===================================================================== *)

(** Modelled from the spec: the global functions [std.less] and
    [std.equal_to] (Functional.ts is not among the sources).  They dispatch
    on the type of their arguments: "[less(a,b)]: [a < b] for
    numbers/strings; for user types, delegates to a user-provided [less]
    method", "[equal_to(a,b)]: symmetric; defaults to deep structural
    equality". *)
Class IComparable (T : Type) : Type := {
  less : T -> T -> bool;
  equal_to : T -> T -> bool
}.

(** Modelled from the spec: [std.less] and [std.equal_to] on numbers,
    "[a < b] for numbers/strings" and equality. *)
#[export] Instance number_comparable : IComparable Z := {
  less := Z.ltb;
  equal_to := Z.eqb
}.

(* ===================================================================== *)
(** * The element list and the tree index *)
(* ===================================================================== *)

Module Base.
Section Defs.
Context {T : Type}.

(** ** Element cells and iterators *)

(** Modelled from the spec: the element cell (List.ts and SetIterator.ts
    are not among the sources), section 3: "Holds the user value [...].
    Identity is stable for the cell's lifetime."  [cid] is that identity:
    two cells are the same object iff their [cid] agree. *)
Record cell : Type := mkCell { cid : nat; cval : T }.

(** Modelled from the spec: [SetIterator<T>], section 9: "[Iterator =
    Cell(node) | End(container)]". *)
Inductive SetIterator : Type :=
| It (c : cell)
| End.

(** Modelled from the spec: identity of cells, as [==] on the node
    objects. *)
Definition same_cell (a b : cell) : bool := Nat.eqb (cid a) (cid b).

(** Modelled from the spec: [SetIterator.equal_to], between iterators of
    one container: "the [end] iterator [...] compares equal only to other
    [end] iterators of the same container". *)
Definition it_equal_to (a b : SetIterator) : bool :=
  match a, b with
  | It x, It y => same_cell x y
  | End, End => true
  | _, _ => false
  end.

(** ** The element list *)

(** Modelled from the spec: the intrusive doubly linked list [data_]
    (List.ts is not among the sources), section 4.2: "Doubly linked,
    sentinel-terminated.  Exposes: [insert(before, value) -> iterator],
    [erase(range) -> iterator], [begin], [end], [size]. [...] Node
    identity is preserved across every operation except erasure of that
    node."  [fresh] is the identity the next created node receives. *)
Record List : Type := mkList { cells : list cell; fresh : nat }.

(** Modelled from the spec: the list of a new container. *)
Definition empty_list : List := mkList [] O.

(** Modelled from the spec: walking the list.  The cells from the one
    [it] refers to, to the end of the list. *)
Fixpoint cells_from (cs : list cell) (it : SetIterator) : list cell :=
  match it, cs with
  | End, _ => []
  | It _, [] => []
  | It c, x :: rest => if same_cell x c then cs else cells_from rest it
  end.

(** Modelled from the spec: walking the list.  The cells before the one
    [it] refers to. *)
Fixpoint cells_until (cs : list cell) (it : SetIterator) : list cell :=
  match cs with
  | [] => []
  | x :: rest =>
      match it with
      | It c => if same_cell x c then [] else x :: cells_until rest it
      | End => x :: cells_until rest it
      end
  end.

(** Modelled from the spec: "[begin] is the first cell; [end] is a
    sentinel one past the last". *)
Definition list_begin (l : List) : SetIterator :=
  match cells l with
  | [] => End
  | c :: _ => It c
  end.

(** Modelled from the spec: [size]. *)
Definition list_size (l : List) : nat := List.length (cells l).

(** Modelled from the spec: [it.next()], following the links of [cs];
    "[next()] on [end] is undefined (implementations may return [end])". *)
Definition next (cs : list cell) (it : SetIterator) : SetIterator :=
  match cells_from cs it with
  | _ :: y :: _ => It y
  | _ => End
  end.

(** Modelled from the spec: "[insert(before, value) -> iterator]".  A new
    cell holding [value] is linked in immediately before [before]. *)
Definition list_insert (l : List) (before : SetIterator) (val : T)
  : List * SetIterator :=
  let c := mkCell (fresh l) val in
  (mkList (cells_until (cells l) before ++ c :: cells_from (cells l) before)
          (S (fresh l)),
   It c).

(** Modelled from the spec: "[erase(range) -> iterator]".  The cells of
    [first, last) are unlinked; the result is [last]. *)
Definition list_erase (l : List) (first last : SetIterator)
  : List * SetIterator :=
  (mkList (cells_until (cells l) first
             ++ cells_from (cells_from (cells l) first) last)
          (fresh l),
   last).

(** Modelled from the spec: walking the list.  The cells a loop [for (;
    !first.equal_to(last); first = first.next())] visits. *)
Definition range (cs : list cell) (first last : SetIterator) : list cell :=
  cells_until (cells_from cs first) last.

(** ** The red-black tree index *)

(** Modelled from the spec: the colour of a tree node, "[color in {red,
    black}]" (the tree sources are not among the sources). *)
Inductive Color : Type := Red | Black.

(** Modelled from the spec: the nodes of the tree index, section 3: "Tree
    node.  [(color in {red, black}, parent, left, right,
    payload-iterator)].  Payload is the list iterator pointing at the
    cell."  Parent links are not represented. *)
Inductive XTreeNode : Type :=
| Leaf
| Node (color : Color) (left : XTreeNode) (value : cell) (right : XTreeNode).

(** Modelled from the spec: [base.AtomicTree], section 4.3: "Balanced
    binary search tree keyed by comparator [less]"; the container "holds
    the comparator [...] as a value", here inside its tree, where
    [new base.AtomicTree<T>(this, compare)] puts it. *)
Record AtomicTree : Type := mkTree {
  root_ : XTreeNode;
  compare_ : T -> T -> bool
}.

(** Modelled from the spec: the observer [key_comp]. *)
Definition key_comp (t : AtomicTree) : T -> T -> bool := compare_ t.

(** Modelled from the spec: [clear], which "releases cells but preserves
    the container object and comparator/hash state". *)
Definition tree_clear (t : AtomicTree) : AtomicTree :=
  mkTree Leaf (compare_ t).

(** Modelled from the spec: the in-order traversal of the tree. *)
Fixpoint inorder (n : XTreeNode) : list cell :=
  match n with
  | Leaf => []
  | Node _ l x r => inorder l ++ x :: inorder r
  end.

(** Modelled from the spec: "[find(k)]: node with smallest key >= k, or
    null if k exceeds max". *)
Fixpoint find_node (cmp : T -> T -> bool) (n : XTreeNode) (k : T)
  : option cell :=
  match n with
  | Leaf => None
  | Node _ l x r =>
      if cmp (cval x) k then find_node cmp r k
      else match find_node cmp l k with
           | Some y => Some y
           | None => Some x
           end
  end.

(** Modelled from the spec: [find(k)] on the tree of a container. *)
Definition tree_find (t : AtomicTree) (k : T) : option cell :=
  find_node (compare_ t) (root_ t) k.

(** Modelled from the spec: "[lower_bound(k)]: iterator to smallest key
    not less than k". *)
Definition tree_lower_bound (t : AtomicTree) (k : T) : SetIterator :=
  match find_node (compare_ t) (root_ t) k with
  | Some c => It c
  | None => End
  end.

(** Modelled from the spec: "[upper_bound(k)]: iterator to smallest key
    strictly greater". *)
Fixpoint upper_node (cmp : T -> T -> bool) (n : XTreeNode) (k : T)
  : option cell :=
  match n with
  | Leaf => None
  | Node _ l x r =>
      if cmp k (cval x)
      then match upper_node cmp l k with
           | Some y => Some y
           | None => Some x
           end
      else upper_node cmp r k
  end.

(** Modelled from the spec: [upper_bound(k)] on the tree of a container,
    [end()] when no key is greater. *)
Definition tree_upper_bound (t : AtomicTree) (k : T) : SetIterator :=
  match upper_node (compare_ t) (root_ t) k with
  | Some c => It c
  | None => End
  end.

(** Modelled from the spec: "[equal_range(k)]:
    [(lower_bound(k), upper_bound(k))]". *)
Definition tree_equal_range (t : AtomicTree) (k : T)
  : SetIterator * SetIterator :=
  (tree_lower_bound t k, tree_upper_bound t k).

(** *** Rebalancing: recolouring and rotations *)

(** Modelled from the spec: recolouring, "root is black". *)
Definition make_black (n : XTreeNode) : XTreeNode :=
  match n with
  | Leaf => Leaf
  | Node _ l x r => Node Black l x r
  end.

(** Modelled from the spec: recolouring a node red. *)
Definition make_red (n : XTreeNode) : XTreeNode :=
  match n with
  | Leaf => Leaf
  | Node _ l x r => Node Red l x r
  end.

(** Modelled from the spec: "recolor/rotate the red-red chain upward".  A
    black node over [l], [x], [r] whose left child may head a red-red
    chain. *)
Definition fix_left (l : XTreeNode) (x : cell) (r : XTreeNode) : XTreeNode :=
  match l with
  | Node Red (Node Red a u b) v c =>
      Node Red (Node Black a u b) v (Node Black c x r)
  | Node Red a u (Node Red b v c) =>
      Node Red (Node Black a u b) v (Node Black c x r)
  | _ => Node Black l x r
  end.

(** Modelled from the spec: "recolor/rotate the red-red chain upward",
    the mirror image: the red-red chain is on the right. *)
Definition fix_right (l : XTreeNode) (x : cell) (r : XTreeNode) : XTreeNode :=
  match r with
  | Node Red (Node Red b v c) w d =>
      Node Red (Node Black l x b) v (Node Black c w d)
  | Node Red b v (Node Red c w d) =>
      Node Red (Node Black l x b) v (Node Black c w d)
  | _ => Node Black l x r
  end.

(** Modelled from the spec: "[insert(it)]: iterator to already-placed
    cell; rebalance; link new node", "on insert, recolor/rotate the
    red-red chain upward".  The new node is a red leaf at the place the
    comparator leads to, a key not less than a node's going right. *)
Fixpoint link (cmp : T -> T -> bool) (c : cell) (n : XTreeNode) : XTreeNode :=
  match n with
  | Leaf => Node Red Leaf c Leaf
  | Node col l x r =>
      if cmp (cval c) (cval x) then
        match col with
        | Red => Node Red (link cmp c l) x r
        | Black => fix_left (link cmp c l) x r
        end
      else
        match col with
        | Red => Node Red l x (link cmp c r)
        | Black => fix_right l x (link cmp c r)
        end
  end.

(** Modelled from the spec: [insert(it)] on the tree of a container; the
    root is black afterwards. *)
Definition tree_insert (t : AtomicTree) (it : SetIterator) : AtomicTree :=
  match it with
  | It c => mkTree (make_black (link (compare_ t) c (root_ t))) (compare_ t)
  | End => t
  end.


(** *** Unlinking a node *)

(** Modelled from the spec: whether the tree has a node whose payload is
    the cell [c]. *)
Fixpoint holds (n : XTreeNode) (c : cell) : bool :=
  match n with
  | Leaf => false
  | Node _ l x r => same_cell x c || holds l c || holds r c
  end.

(** Modelled from the spec: "on erase, handle the six double-black cases
    with symmetric mirrors".  The left subtree [l] lost one black level. *)
Definition shrunk_left (l : XTreeNode) (x : cell) (r : XTreeNode) : XTreeNode :=
  match l with
  | Node Red a u b => Node Red (Node Black a u b) x r
  | _ =>
      match r with
      | Node Black a v b => fix_right l x (Node Red a v b)
      | Node Red (Node Black a v b) w c =>
          Node Red (Node Black l x a) v (fix_right b w (make_red c))
      | _ => Node Red l x r
      end
  end.

(** Modelled from the spec: "on erase, handle the six double-black cases
    with symmetric mirrors".  The right subtree [r] lost one black
    level. *)
Definition shrunk_right (l : XTreeNode) (x : cell) (r : XTreeNode) : XTreeNode :=
  match r with
  | Node Red b v c => Node Red l x (Node Black b v c)
  | _ =>
      match l with
      | Node Black a u b => fix_left (Node Red a u b) x r
      | Node Red a u (Node Black b v c) =>
          Node Red (fix_left (make_red a) u b) v (Node Black c x r)
      | _ => Node Red l x r
      end
  end.

(** Modelled from the spec: "unlink & rebalance".  The two subtrees of an
    unlinked node, joined. *)
Fixpoint join (l : XTreeNode) : XTreeNode -> XTreeNode :=
  match l with
  | Leaf => fun r => r
  | Node lc ll lx lr =>
      fix join_l (r : XTreeNode) : XTreeNode :=
        match r with
        | Leaf => l
        | Node rc rl rx rr =>
            match lc, rc with
            | Red, Red =>
                match join lr rl with
                | Node Red m1 y m2 =>
                    Node Red (Node Red ll lx m1) y (Node Red m2 rx rr)
                | m => Node Red ll lx (Node Red m rx rr)
                end
            | Black, Black =>
                match join lr rl with
                | Node Red m1 y m2 =>
                    Node Red (Node Black ll lx m1) y (Node Black m2 rx rr)
                | m => shrunk_left ll lx (Node Black m rx rr)
                end
            | Black, Red => Node Red (join_l rl) rx rr
            | Red, Black => Node Red ll lx (join lr r)
            end
        end
  end.

(** Modelled from the spec: the colour test of the erase cases. *)
Definition is_black (n : XTreeNode) : bool :=
  match n with
  | Node Black _ _ _ => true
  | _ => false
  end.

(** Modelled from the spec: "[erase(it)]: unlink & rebalance".  The node
    whose payload is the cell [c] is looked for along the comparator;
    among nodes whose keys are equivalent to the key of [c] the search
    continues on the side that holds [c]. *)
Fixpoint unlink (cmp : T -> T -> bool) (c : cell) (n : XTreeNode) : XTreeNode :=
  match n with
  | Leaf => Leaf
  | Node _ l x r =>
      if same_cell x c then join l r
      else if cmp (cval c) (cval x) || (negb (cmp (cval x) (cval c)) && holds l c)
      then
        if is_black l then shrunk_left (unlink cmp c l) x r
        else Node Red (unlink cmp c l) x r
      else
        if is_black r then shrunk_right l x (unlink cmp c r)
        else Node Red l x (unlink cmp c r)
  end.

(** Modelled from the spec: [erase(it)] on the tree of a container,
    "unlink & rebalance" of the node whose payload is the cell of [it].
    The spec does not say what erasing an iterator does that the tree has
    no node for, as [end()] is; here it unlinks nothing. *)
Definition tree_erase (t : AtomicTree) (it : SetIterator) : AtomicTree :=
  match it with
  | It c =>
      if holds (root_ t) c
      then mkTree (make_black (unlink (compare_ t) c (root_ t))) (compare_ t)
      else t
  | End => t
  end.

End Defs.

Arguments cell : clear implicits.
Arguments SetIterator : clear implicits.
Arguments List : clear implicits.
Arguments XTreeNode : clear implicits.
Arguments AtomicTree : clear implicits.

End Base.

(* ===================================================================== *)
(** * TreeSet.ts *)
(* ===================================================================== *)

Module TreeSet.
Import Base.
Section Defs.
Context {T : Type} `{IComparable T}.

(** [data_] is inherited from [base.SetContainer], [tree_] is the
    set's own field; the comparator lives in the tree. *)
Record TreeSet : Type := mkSet {
  data_ : List T;
  tree_ : AtomicTree T
}.

(** [new TreeSet<T>()] and [new TreeSet<T>(compare)] *)
Definition construct_with (compare : T -> T -> bool) : TreeSet :=
  mkSet empty_list (mkTree Leaf compare).

Definition construct : TreeSet := construct_with less.

(** Modelled from the spec: [begin()] of [base.SetContainer] (not among
    the sources), the [begin] of the element list. *)
Definition begin (s : TreeSet) : SetIterator T := list_begin (data_ s).

(** Modelled from the spec: [end()] of [base.SetContainer], the sentinel
    one past the last cell. *)
Definition end_ (s : TreeSet) : SetIterator T := End.

(** Modelled from the spec: [size()] of [base.SetContainer]. *)
Definition size (s : TreeSet) : nat := list_size (data_ s).

(** Modelled from the spec: [it.next()] of a [SetIterator] of this
    container, which follows the element list. *)
Definition it_next (s : TreeSet) (it : SetIterator T) : SetIterator T :=
  next (cells (data_ s)) it.

(** Modelled from the spec: forward iteration, the cells from [begin()] to
    [end()]. *)
Definition forward_cells (s : TreeSet) : list (cell T) := cells (data_ s).

(** Modelled from the spec: forward iteration, the values [it.value] from
    [begin()] to [end()]. *)
Definition forward (s : TreeSet) : list T := map cval (cells (data_ s)).

(** [clear()]: [super.clear()], which empties the element list (modelled
    from the spec: "[clear] releases cells"), then [this.tree_.clear()]. *)
Definition clear (s : TreeSet) : TreeSet :=
  mkSet (mkList [] (fresh (data_ s))) (tree_clear (tree_ s)).

(** ** Accessors *)

Definition find (s : TreeSet) (val : T) : SetIterator T :=
  match tree_find (tree_ s) val with
  | None => end_ s
  | Some node_value =>
      if negb (equal_to (cval node_value) val) then end_ s
      else It node_value
  end.

(** Modelled from the spec: [has(val)] of [base.SetContainer] (not among
    the sources): whether the lookup [find(val)] ends at a cell rather than
    at [end()]. *)
Definition has (s : TreeSet) (val : T) : bool :=
  negb (it_equal_to (find s val) (end_ s)).

Definition key_comp (s : TreeSet) : T -> T -> bool :=
  Base.key_comp (tree_ s).

Definition value_comp (s : TreeSet) : T -> T -> bool :=
  Base.key_comp (tree_ s).

Definition lower_bound (s : TreeSet) (val : T) : SetIterator T :=
  tree_lower_bound (tree_ s) val.

Definition upper_bound (s : TreeSet) (val : T) : SetIterator T :=
  tree_lower_bound (tree_ s) val.

Definition equal_range (s : TreeSet) (val : T)
  : SetIterator T * SetIterator T :=
  tree_equal_range (tree_ s) val.

(** ** Post-process *)

Definition handle_insert (s : TreeSet) (first last : SetIterator T) : TreeSet :=
  mkSet (data_ s) (tree_insert (tree_ s) first).

(** One [this.tree_.erase(last)] for every cell the loop visits. *)
Fixpoint handle_erase_loop (visited : list (cell T)) (last : SetIterator T)
    (t : AtomicTree T) : AtomicTree T :=
  match visited with
  | [] => t
  | _ :: rest => handle_erase_loop rest last (tree_erase t last)
  end.

(** [links] are the cells as they were linked before the erased range was
    cut out of the list: the cells of the range keep their own links, so
    that [first.next()] walks through them up to [last]. *)
Definition handle_erase (links : list (cell T)) (s : TreeSet)
    (first last : SetIterator T) : TreeSet :=
  mkSet (data_ s) (handle_erase_loop (range links first last) last (tree_ s)).

(** ** Insert *)

(** The two statements every insertion ends with:
    [it = new SetIterator<T>(this, this.data_.insert(it.get_list_iterator(),
    val)); this.handle_insert(it, it.next());] *)
Definition place (s : TreeSet) (it : SetIterator T) (val : T)
  : TreeSet * SetIterator T :=
  let '(d, it') := list_insert (data_ s) it val in
  let s' := mkSet d (tree_ s) in
  (handle_insert s' it' (it_next s' it'), it').

Definition insert_by_val (s : TreeSet) (val : T)
  : TreeSet * (SetIterator T * bool) :=
  match tree_find (tree_ s) val with
  | Some node_value =>
      if equal_to (cval node_value) val
      then (s, (It node_value, false))
      else
        let it :=
          if less (cval node_value) val
          then it_next s (It node_value)
          else It node_value in
        let '(s', it') := place s it val in
        (s', (it', true))
  | None =>
      let '(s', it') := place s (end_ s) val in
      (s', (it', true))
  end.

(** Reading [hint.value] when [hint] is [end()] is outside the iterator
    contract ("the [end] iterator is never dereferenceable"): [None]. *)
Definition insert_by_hint (s : TreeSet) (hint : SetIterator T) (val : T)
  : option (TreeSet * SetIterator T) :=
  if has s val then Some (s, end_ s)
  else
    let compare := Base.key_comp (tree_ s) in
    match hint with
    | End => None
    | It hint_cell =>
        if compare (cval hint_cell) val
           && match it_next s hint with
              | End => true
              | It next_cell => compare val (cval next_cell)
              end
        then Some (place s hint val)
        else
          let '(s', p) := insert_by_val s val in
          Some (s', fst p)
    end.

(** Modelled from the spec: the public [insert(value)] of
    [base.UniqueSet] (not among the sources), which hands over to
    [insert_by_val]: "Unique variants return [(iterator, inserted:
    bool)]". *)
Definition insert (s : TreeSet) (val : T) : TreeSet * (SetIterator T * bool) :=
  insert_by_val s val.

(** Modelled from the spec: the public [insert(hint, value)] of
    [base.UniqueSet] (not among the sources), which hands over to
    [insert_by_hint]. *)
Definition insert_hint (s : TreeSet) (hint : SetIterator T) (val : T)
  : option (TreeSet * SetIterator T) :=
  insert_by_hint s hint val.

(** [insert_by_range] over the values of an array. *)
Definition insert_all (s : TreeSet) (vals : list T) : TreeSet :=
  fold_left (fun acc v => fst (insert_by_val acc v)) vals s.

(** ** Erase *)

(** Modelled from the spec: [erase(first, last)] of [base.SetContainer]
    (not among the sources), section 2: "A write (insert/erase) routes
    through the container, which (1) mutates the intrusive list [...], (2)
    calls a post-process hook that updates the index". *)
Definition erase_range (s : TreeSet) (first last : SetIterator T)
  : TreeSet * SetIterator T :=
  let links := cells (data_ s) in
  let '(d, ret) := list_erase (data_ s) first last in
  (handle_erase links (mkSet d (tree_ s)) first last, ret).

(** Modelled from the spec: [erase(it)] of [base.SetContainer], the
    erasure of the range from [it] to [it.next()]. *)
Definition erase (s : TreeSet) (it : SetIterator T) : TreeSet * SetIterator T :=
  erase_range s it (it_next s it).

(** ** Swap *)

Definition swap_tree_set (this obj : TreeSet) : TreeSet * TreeSet :=
  (mkSet (data_ obj) (tree_ obj), mkSet (data_ this) (tree_ this)).

(** [obj instanceof TreeSet] holds by typing. *)
Definition swap (this obj : TreeSet) : TreeSet * TreeSet :=
  swap_tree_set this obj.

End Defs.
Arguments TreeSet T : clear implicits.
End TreeSet.

(* ===================================================================== *)
(** * TreeMultiSet.ts *)
(* ===================================================================== *)

Module TreeMultiSet.
Import Base.
Section Defs.
Context {T : Type} `{IComparable T}.

Record TreeMultiSet : Type := mkSet {
  data_ : List T;
  tree_ : AtomicTree T
}.

Definition construct_with (compare : T -> T -> bool) : TreeMultiSet :=
  mkSet empty_list (mkTree Leaf compare).

Definition construct : TreeMultiSet := construct_with less.

(** Modelled from the spec: [begin()] of [base.SetContainer] (not among
    the sources), the [begin] of the element list. *)
Definition begin (s : TreeMultiSet) : SetIterator T := list_begin (data_ s).

(** Modelled from the spec: [end()] of [base.SetContainer], the sentinel
    one past the last cell. *)
Definition end_ (s : TreeMultiSet) : SetIterator T := End.

(** Modelled from the spec: [size()] of [base.SetContainer]. *)
Definition size (s : TreeMultiSet) : nat := list_size (data_ s).

(** Modelled from the spec: [it.next()] of a [SetIterator] of this
    container, which follows the element list. *)
Definition it_next (s : TreeMultiSet) (it : SetIterator T) : SetIterator T :=
  next (cells (data_ s)) it.

(** Modelled from the spec: forward iteration, the cells from [begin()] to
    [end()]. *)
Definition forward_cells (s : TreeMultiSet) : list (cell T) := cells (data_ s).

(** Modelled from the spec: forward iteration, the values [it.value] from
    [begin()] to [end()]. *)
Definition forward (s : TreeMultiSet) : list T := map cval (cells (data_ s)).

(** [clear()]: [super.clear()], which empties the element list (modelled
    from the spec: "[clear] releases cells"), then [this.tree_.clear()]. *)
Definition clear (s : TreeMultiSet) : TreeMultiSet :=
  mkSet (mkList [] (fresh (data_ s))) (tree_clear (tree_ s)).

(** ** Accessors *)

Definition find (s : TreeMultiSet) (val : T) : SetIterator T :=
  match tree_find (tree_ s) val with
  | None => end_ s
  | Some node_value =>
      if negb (equal_to val (cval node_value)) then end_ s
      else It node_value
  end.

(** The loop [for (; !it.equal_to(this.end()) && std.equal_to(it.value,
    val); it = it.next()) cnt++;] over the cells from [it] on. *)
Fixpoint count_loop (from_it : list (cell T)) (val : T) (cnt : nat) : nat :=
  match from_it with
  | [] => cnt
  | c :: rest =>
      if equal_to (cval c) val then count_loop rest val (S cnt) else cnt
  end.

Definition count (s : TreeMultiSet) (val : T) : nat :=
  let it := find s val in
  count_loop (cells_from (cells (data_ s)) it) val O.

Definition key_comp (s : TreeMultiSet) : T -> T -> bool :=
  Base.key_comp (tree_ s).

Definition value_comp (s : TreeMultiSet) : T -> T -> bool :=
  Base.key_comp (tree_ s).

Definition lower_bound (s : TreeMultiSet) (val : T) : SetIterator T :=
  tree_lower_bound (tree_ s) val.

Definition upper_bound (s : TreeMultiSet) (val : T) : SetIterator T :=
  tree_upper_bound (tree_ s) val.

Definition equal_range (s : TreeMultiSet) (val : T)
  : SetIterator T * SetIterator T :=
  tree_equal_range (tree_ s) val.

(** ** Post-process *)

Definition handle_insert (s : TreeMultiSet) (first last : SetIterator T)
  : TreeMultiSet :=
  mkSet (data_ s) (tree_insert (tree_ s) first).

Fixpoint handle_erase_loop (visited : list (cell T)) (last : SetIterator T)
    (t : AtomicTree T) : AtomicTree T :=
  match visited with
  | [] => t
  | _ :: rest => handle_erase_loop rest last (tree_erase t last)
  end.

Definition handle_erase (links : list (cell T)) (s : TreeMultiSet)
    (first last : SetIterator T) : TreeMultiSet :=
  mkSet (data_ s) (handle_erase_loop (range links first last) last (tree_ s)).

(** ** Insert *)

(** The loop [while (it.equal_to(this.end()) == false &&
    std.less(it.value, val)) it = it.next();] over the cells from [it]
    on. *)
Fixpoint skip_less (from_it : list (cell T)) (val : T) : SetIterator T :=
  match from_it with
  | [] => End
  | c :: rest => if less (cval c) val then skip_less rest val else It c
  end.

(** The two statements every insertion ends with:
    [it = new SetIterator<T>(this, this.data_.insert(it.get_list_iterator(),
    val)); this.handle_insert(it, it.next());] *)
Definition place (s : TreeMultiSet) (it : SetIterator T) (val : T)
  : TreeMultiSet * SetIterator T :=
  let '(d, it') := list_insert (data_ s) it val in
  let s' := mkSet d (tree_ s) in
  (handle_insert s' it' (it_next s' it'), it').

Definition insert_by_val (s : TreeMultiSet) (val : T)
  : TreeMultiSet * SetIterator T :=
  let it :=
    match tree_find (tree_ s) val with
    | None => end_ s
    | Some node_value =>
        if equal_to (cval node_value) val
        then it_next s (It node_value)
        else if less (cval node_value) val
        then skip_less
               (cells_from (cells (data_ s)) (it_next s (It node_value))) val
        else It node_value
    end in
  place s it val.

Definition insert_by_hint (s : TreeMultiSet) (hint : SetIterator T) (val : T)
  : option (TreeMultiSet * SetIterator T) :=
  let compare := Base.key_comp (tree_ s) in
  match hint with
  | End => None
  | It hint_cell =>
      if (compare (cval hint_cell) val || equal_to (cval hint_cell) val)
         && match it_next s hint with
            | End => true
            | It next_cell =>
                compare val (cval next_cell) || equal_to val (cval next_cell)
            end
      then Some (place s hint val)
      else Some (insert_by_val s val)
  end.

(** Modelled from the spec: the public [insert(value)] of [base.MultiSet]
    (not among the sources), which hands over to [insert_by_val]: "Multi
    variants return [iterator]". *)
Definition insert (s : TreeMultiSet) (val : T) : TreeMultiSet * SetIterator T :=
  insert_by_val s val.

Definition insert_all (s : TreeMultiSet) (vals : list T) : TreeMultiSet :=
  fold_left (fun acc v => fst (insert_by_val acc v)) vals s.

(** ** Erase *)

(** Modelled from the spec: [erase(first, last)] of [base.SetContainer]
    (not among the sources), section 2: "A write (insert/erase) routes
    through the container, which (1) mutates the intrusive list [...], (2)
    calls a post-process hook that updates the index". *)
Definition erase_range (s : TreeMultiSet) (first last : SetIterator T)
  : TreeMultiSet * SetIterator T :=
  let links := cells (data_ s) in
  let '(d, ret) := list_erase (data_ s) first last in
  (handle_erase links (mkSet d (tree_ s)) first last, ret).

(** Modelled from the spec: [erase(it)] of [base.SetContainer], the
    erasure of the range from [it] to [it.next()]. *)
Definition erase (s : TreeMultiSet) (it : SetIterator T)
  : TreeMultiSet * SetIterator T :=
  erase_range s it (it_next s it).

(** ** Swap *)

Definition swap_tree_set (this obj : TreeMultiSet)
  : TreeMultiSet * TreeMultiSet :=
  (mkSet (data_ obj) (tree_ obj), mkSet (data_ this) (tree_ this)).

Definition swap (this obj : TreeMultiSet) : TreeMultiSet * TreeMultiSet :=
  swap_tree_set this obj.

End Defs.
Arguments TreeMultiSet T : clear implicits.
End TreeMultiSet.

(* ===================================================================== *)
(** * Reference notions and sample containers *)
(* ===================================================================== *)

Module Samples.
Import Base.

(** A JavaScript value of a [Vector<number>]: a number or [undefined]. *)
Definition js_number : Type := option Z.
Definition undefined : js_number := None.
Definition num (z : Z) : js_number := Some z.

Definition vector_of (zs : list Z) : @Vector.Vector js_number :=
  Vector.mkVector (map num zs) [].


Definition set_of (zs : list Z) : TreeSet.TreeSet Z :=
  TreeSet.insert_all TreeSet.construct zs.

Definition multiset_of (zs : list Z) : TreeMultiSet.TreeMultiSet Z :=
  TreeMultiSet.insert_all TreeMultiSet.construct zs.

(** The user type of the library's own sorting example, [class Cube] with
    its method [less(obj)], which compares volumes; on it [std.less]
    delegates to that method.  The class has no [equal_to] method:
    [std.equal_to] is structural equality.  The fields are JavaScript
    numbers; here they are integers, on which the product [volume] is the
    one the code computes as long as it stays below [2^53], where doubles
    are exact. *)
Record Cube : Type := mkCube {
  width : Z; height : Z; length : Z;
  x : Z; y : Z; z : Z
}.

Definition volume (c : Cube) : Z := width c * height c * length c.

Definition cube_less (c obj : Cube) : bool := volume c <? volume obj.

Definition cube_equal_to (c obj : Cube) : bool :=
  (width c =? width obj) && (height c =? height obj)
  && (length c =? length obj)
  && (x c =? x obj) && (y c =? y obj) && (z c =? z obj).

#[export] Instance cube_comparable : IComparable Cube := {
  less := cube_less;
  equal_to := cube_equal_to
}.


End Samples.

(** The stable sort of a sequence under a comparator, as the spec's round
    trip property names it ([sort_stable(S)]): every element is put behind
    the elements already placed that are not greater, so that equivalent
    elements keep the order in which they came. *)
Section StableSort.
Context {T : Type}.
Variable cmp : T -> T -> bool.

Fixpoint sorted_insert (x : T) (l : list T) : list T :=
  match l with
  | [] => [x]
  | y :: rest => if cmp x y then x :: y :: rest else y :: sorted_insert x rest
  end.

Definition sort_stable (S : list T) : list T :=
  fold_left (fun acc x => sorted_insert x acc) S [].

End StableSort.

(* ===================================================================== *)
(** * Well-formed tree containers *)
(* ===================================================================== *)

Module Shape.
Import Base.
Section Defs.
Context {T : Type} `{IComparable T}.

(** The cells are in non-decreasing order of their values. *)
Fixpoint ascending (l : list (cell T)) : Prop :=
  match l with
  | [] => True
  | x :: rest =>
      Forall (fun y => less (cval y) (cval x) = false) rest /\ ascending rest
  end.

(** The first cell of a sequence whose value is not less than [k]. *)
Definition first_not_less (k : T) (l : list (cell T)) : option (cell T) :=
  List.find (fun c => negb (less (cval c) k)) l.

(** Where the comparator leads a new node to, seen on the in-order
    sequence: in front of the first cell with a greater value. *)
Fixpoint enter (c : cell T) (l : list (cell T)) : list (cell T) :=
  match l with
  | [] => [c]
  | x :: rest =>
      if less (cval c) (cval x) then c :: x :: rest else x :: enter c rest
  end.

(** How the answer to "first cell not less than [k]" changes when a cell
    [n] of value [v] joins a sequence. *)
Definition first_after (v : T) (n : cell T) (k : T) (before : option (cell T))
  : option (cell T) :=
  if less v k then before
  else match before with
       | Some x => if less v (cval x) then Some n else Some x
       | None => Some n
       end.

(** A list and a tree index that belong together, under the default
    comparator: both are in order, the cells of the list are distinct
    nodes older than the next fresh one, and list and tree agree on the
    first cell not less than any key. *)
Definition well_formed (d : List T) (t : AtomicTree T) : Prop :=
  compare_ t = less
  /\ ascending (inorder (root_ t))
  /\ ascending (cells d)
  /\ NoDup (map cid (cells d))
  /\ Forall (fun c => (cid c < fresh d)%nat) (cells d)
  /\ forall k, first_not_less k (inorder (root_ t)) = first_not_less k (cells d).

(** The values are in strictly increasing order. *)
Fixpoint strictly_ascending (l : list T) : Prop :=
  match l with
  | [] => True
  | x :: rest =>
      Forall (fun y => less x y = true) rest /\ strictly_ascending rest
  end.


(** A unique set in good shape: list and tree belong together, the values
    increase strictly, and the in-order traversal of the tree is the
    list. *)
Definition set_shape (d : List T) (t : AtomicTree T) : Prop :=
  well_formed d t
  /\ strictly_ascending (map cval (cells d))
  /\ inorder (root_ t) = cells d.

End Defs.
End Shape.

(** [std.less] is a strict total order on [T] and [std.equal_to] decides
    equality; so it is for numbers and for strings. *)
Definition totally_ordered (T : Type) `{IComparable T} : Prop :=
  (forall a : T, less a a = false)
  /\ (forall a b c : T, less a b = true -> less b c = true -> less a c = true)
  /\ (forall a b : T, less a b = false -> less b a = false -> a = b)
  /\ (forall a b : T, equal_to a b = true <-> a = b).

(* ===================================================================== *)
(** * Vector: element access *)
(* ===================================================================== *)

Section VectorAccess.
Context {T : Type}.
Variable undefined : T.

Local Abbreviation Vec := (@Vector.Vector T).

Lemma length_nonneg (v : Vec) : 0 <= Vector.length v.
Proof. unfold Vector.length. lia. Qed.

Lemma at_in_range (v : Vec) (i : Z) :
  0 <= i < Vector.size v ->
  Vector.at_ undefined v i = Ok (nth (Z.to_nat i) (Vector.items v) undefined).
Proof.
  intros Hi. unfold Vector.at_, Vector.get.
  destruct (Z.ltb_spec i (Vector.size v)); [|lia].
  destruct (Z.ltb_spec i 0); [lia|reflexivity].
Qed.

Lemma at_past_the_end (v : Vec) (i : Z) :
  Vector.size v <= i ->
  is_out_of_range (Vector.at_ undefined v i) = true.
Proof.
  intros Hi. unfold Vector.at_.
  destruct (Z.ltb_spec i (Vector.size v)); [lia|reflexivity].
Qed.

Lemma at_negative (v : Vec) (i : Z) :
  i < 0 ->
  Vector.at_ undefined v i = Ok (Vector.prop_get undefined (Vector.props v) i).
Proof.
  intros Hi. unfold Vector.at_, Vector.get.
  pose proof (length_nonneg v). unfold Vector.size.
  destruct (Z.ltb_spec i (Vector.length v)); [|lia].
  destruct (Z.ltb_spec i 0); [reflexivity|lia].
Qed.

(** C8.  [at(i)] throws out-of-range for every [i >= size()] and returns
    the element for [0 <= i < size()]; [front()] throws on an empty
    vector.  But a negative index passes the only guard, [index <
    this.size()]: [at(-1)] returns whatever [this[-1]] reads, and so
    [back()], which is [at(length - 1)], returns [undefined] on an empty
    vector instead of throwing. *)
Theorem back_of_empty_vector_does_not_throw :
  (forall (v : Vec) (i : Z), Vector.size v <= i ->
     is_out_of_range (Vector.at_ undefined v i) = true)
  /\ (forall (v : Vec) (i : Z), 0 <= i < Vector.size v ->
     Vector.at_ undefined v i = Ok (nth (Z.to_nat i) (Vector.items v) undefined))
  /\ is_out_of_range (Vector.front undefined Vector.empty_vector) = true
  /\ Vector.back undefined Vector.empty_vector = Ok undefined
  /\ (forall (v : Vec), Vector.at_ undefined v (-1)
        = Ok (Vector.prop_get undefined (Vector.props v) (-1))).
Proof.
  repeat split.
  - apply at_past_the_end.
  - apply at_in_range.
  - intros v. apply at_negative. lia.
Qed.

Lemma nth_length_default (l : list T) :
  nth (List.length l) l undefined = undefined.
Proof. apply nth_overflow. lia. Qed.

Lemma set_throws_iff (v : Vec) (i : Z) (x : T) :
  is_out_of_range (Vector.set undefined v i x) = true <-> i > Vector.size v.
Proof.
  unfold Vector.set, Vector.size.
  destruct (Z.gtb_spec i (Vector.length v)); simpl; split; intros; try lia;
    try reflexivity; discriminate.
Qed.

Lemma set_at_size (v : Vec) (x : T) :
  Vector.set undefined v (Vector.size v) x
  = Ok (Vector.mkVector (Vector.items v ++ [x]) (Vector.props v), undefined).
Proof.
  pose proof (length_nonneg v) as Hl.
  unfold Vector.set, Vector.size, Vector.get, Vector.put.
  destruct (Z.gtb_spec (Vector.length v) (Vector.length v)); [lia|].
  destruct (Z.ltb_spec (Vector.length v) 0); [lia|].
  destruct (Z.ltb_spec (Vector.length v) (Vector.length v)); [lia|].
  rewrite Z.sub_diag. simpl.
  unfold Vector.length. rewrite Nat2Z.id, nth_length_default. reflexivity.
Qed.

Lemma length_replace_nth (n : nat) (x : T) (l : list T) :
  List.length (Vector.replace_nth n x l) = List.length l.
Proof.
  revert n. induction l as [|y l IH]; intros [|n]; simpl; auto.
Qed.

Lemma nth_replace_nth_same (n : nat) (x d : T) (l : list T) :
  (n < List.length l)%nat -> nth n (Vector.replace_nth n x l) d = x.
Proof.
  revert n. induction l as [|y l IH]; intros [|n] Hn; simpl in *; try lia; auto.
  apply IH. lia.
Qed.

Lemma set_below_size (v : Vec) (i : Z) (x : T) :
  i < Vector.size v ->
  Vector.set undefined v i x
  = Ok (Vector.put undefined v i x, Vector.get undefined v i)
  /\ Vector.size (Vector.put undefined v i x) = Vector.size v
  /\ Vector.at_ undefined (Vector.put undefined v i x) i = Ok x.
Proof.
  intros Hi. pose proof (length_nonneg v) as Hl. unfold Vector.size in *.
  assert (Hsize : Vector.length (Vector.put undefined v i x) = Vector.length v).
  { unfold Vector.put. destruct (Z.ltb_spec i 0); [reflexivity|].
    destruct (Z.ltb_spec i (Vector.length v)); [|lia].
    unfold Vector.length. cbn [Vector.items].
    rewrite length_replace_nth. reflexivity. }
  split; [|split; [exact Hsize|]].
  - unfold Vector.set.
    destruct (Z.gtb_spec i (Vector.length v)); [lia|reflexivity].
  - unfold Vector.at_, Vector.size. rewrite Hsize.
    destruct (Z.ltb_spec i (Vector.length v)); [|lia]. f_equal.
    unfold Vector.get, Vector.put. destruct (Z.ltb_spec i 0).
    + cbn [Vector.props Vector.prop_get]. rewrite Z.eqb_refl. reflexivity.
    + destruct (Z.ltb_spec i (Vector.length v)); [|lia]. cbn [Vector.items].
      apply nth_replace_nth_same. unfold Vector.length in *. lia.
Qed.

Lemma object_set_throws_iff (v : @ArrayLike.Vector T) (i : Z) (x : T) :
  is_out_of_range (ArrayLike.set undefined v i x) = true
  <-> i > ArrayLike.size v.
Proof.
  unfold ArrayLike.set, ArrayLike.size.
  destruct (Z.gtb_spec i (ArrayLike.length v)); simpl; split; intros;
    try lia; try reflexivity; discriminate.
Qed.

Lemma object_set_up_to_size (v : @ArrayLike.Vector T) (i : Z) (x : T) :
  i <= ArrayLike.size v ->
  ArrayLike.set undefined v i x
  = Ok (ArrayLike.put v i x, ArrayLike.get undefined v i)
  /\ ArrayLike.size (ArrayLike.put v i x) = ArrayLike.size v
  /\ ArrayLike.get undefined (ArrayLike.put v i x) i = x.
Proof.
  intros Hi. unfold ArrayLike.size in *. split; [|split].
  - unfold ArrayLike.set.
    destruct (Z.gtb_spec i (ArrayLike.length v)); [lia|reflexivity].
  - reflexivity.
  - unfold ArrayLike.get, ArrayLike.put. cbn [ArrayLike.own Vector.prop_get].
    rewrite Z.eqb_refl. reflexivity.
Qed.

(** The two objects agree on what [new Vector(array)] holds: the same
    size, and [at] answers alike at every index. *)
Lemma runtimes_agree_on_arrays (array : list T) (i : Z) :
  ArrayLike.size (ArrayLike.construct_from_array array)
  = Vector.size (Vector.construct_from_array array)
  /\ ArrayLike.at_ undefined (ArrayLike.construct_from_array array) i
     = Vector.at_ undefined (Vector.construct_from_array array) i.
Proof.
  assert (Hpush : forall (l : list T) (o : @ArrayLike.Vector T) (v : Vec),
    ArrayLike.length o = Vector.length v ->
    (forall j, j < Vector.length v ->
               ArrayLike.get undefined o j = Vector.get undefined v j) ->
    ArrayLike.length (ArrayLike.push_all o l)
    = Vector.length (Vector.push_all v l)
    /\ forall j, j < Vector.length (Vector.push_all v l) ->
         ArrayLike.get undefined (ArrayLike.push_all o l) j
         = Vector.get undefined (Vector.push_all v l) j).
  { induction l as [|y l IH]; intros o v Hlen Hget.
    - unfold Vector.push_all. rewrite app_nil_r. destruct v. split; assumption.
    - unfold ArrayLike.push_all in *. cbn [fold_left].
      assert (Hsame : Vector.push_all v (y :: l)
                      = Vector.push_all (Vector.push v y) l).
      { unfold Vector.push_all, Vector.push. cbn [Vector.items Vector.props].
        rewrite <- app_assoc. reflexivity. }
      rewrite Hsame. apply IH.
      + unfold ArrayLike.push, Vector.push, Vector.length in *.
        cbn [ArrayLike.length Vector.items]. rewrite length_app. simpl. lia.
      + intros j Hj. pose proof (length_nonneg v) as Hl.
        unfold ArrayLike.push, ArrayLike.get.
        cbn [ArrayLike.own Vector.prop_get]. rewrite Hlen.
        assert (Hgrown : Vector.length (Vector.push v y) = Vector.length v + 1).
        { unfold Vector.push, Vector.length. cbn [Vector.items].
          rewrite length_app. simpl. lia. }
        destruct (Z.eqb_spec (Vector.length v) j) as [Heq|Hne].
        * subst j. unfold Vector.get, Vector.push. cbn [Vector.items].
          destruct (Z.ltb_spec (Vector.length v) 0); [lia|].
          unfold Vector.length. rewrite Nat2Z.id, app_nth2 by lia.
          rewrite Nat.sub_diag. reflexivity.
        * fold (ArrayLike.get undefined o j). rewrite Hget by lia.
          unfold Vector.get, Vector.push. cbn [Vector.items Vector.props].
          destruct (Z.ltb_spec j 0); [reflexivity|].
          symmetry. apply app_nth1. unfold Vector.length in *. lia. }
  destruct (Hpush array ArrayLike.empty_vector Vector.empty_vector)
    as [Hlen Hget].
  - reflexivity.
  - intros j Hj. unfold ArrayLike.get, Vector.get. simpl.
    destruct (Z.ltb_spec j 0); [reflexivity|].
    destruct (Z.to_nat j); reflexivity.
  - unfold ArrayLike.construct_from_array, Vector.construct_from_array,
      ArrayLike.size, Vector.size, ArrayLike.at_, Vector.at_ in *.
    split; [exact Hlen|]. unfold ArrayLike.size, Vector.size. rewrite Hlen.
    destruct (Z.ltb_spec i
                (Vector.length (Vector.push_all Vector.empty_vector array)));
      [|reflexivity].
    rewrite Hget by assumption. reflexivity.
Qed.

(** C10, as stated, fails.  [new Vector([1, 2, 3])] on an ordinary
    array-like object has size 3.  [set(3, 9)] does not throw and returns
    [undefined]; but the size is still 3 and [at(3)] still throws: the [9]
    is a property at index 3 that is not an element.  A second [set(3, 7)]
    returns it. *)
Lemma set_at_size_leaves_the_size :
  let v := ArrayLike.construct_from_array (map Samples.num [1; 2; 3]) in
  let v' := ArrayLike.put v 3 (Samples.num 9) in
  ArrayLike.size v = 3
  /\ ArrayLike.at_ Samples.undefined v 2 = Ok (Samples.num 3)
  /\ ArrayLike.set Samples.undefined v 3 (Samples.num 9)
     = Ok (v', Samples.undefined)
  /\ ArrayLike.size v' = 3
  /\ is_out_of_range (ArrayLike.at_ Samples.undefined v' 3) = true
  /\ ArrayLike.set Samples.undefined v' 3 (Samples.num 7)
     = Ok (ArrayLike.put v' 3 (Samples.num 7), Samples.num 9).
Proof. repeat split. Qed.

(** C10 (amended).  [set(i, x)] throws out-of-range exactly when [i >
    size()]; below [size()] it returns the previous content of [this[i]],
    stores [x] there and leaves the size as it is.  The boundary call
    [set(size(), x)] does not throw either and returns the previous content
    of that slot; what it does to the size depends on what a Vector is.
    An exotic Array object grows by one element, and [at] of the old
    [size()] then returns [x].  An ordinary array-like object, which the
    ES5 emit of the class makes of a Vector, keeps its size: [x] becomes a
    property that is not an element, and [at(size())] still throws. *)
Theorem set_fails_only_beyond_size :
  (forall (v : Vec) (i : Z) (x : T),
      (is_out_of_range (Vector.set undefined v i x) = true
       <-> i > Vector.size v)
      /\ (i < Vector.size v ->
          exists v' : Vec,
            Vector.set undefined v i x = Ok (v', Vector.get undefined v i)
            /\ Vector.size v' = Vector.size v
            /\ Vector.at_ undefined v' i = Ok x)
      /\ exists v' : Vec,
           Vector.set undefined v (Vector.size v) x = Ok (v', undefined)
           /\ Vector.items v' = Vector.items v ++ [x]
           /\ Vector.size v' = Vector.size v + 1
           /\ Vector.at_ undefined v' (Vector.size v) = Ok x)
  /\ (forall (v : @ArrayLike.Vector T) (i : Z) (x : T),
        (is_out_of_range (ArrayLike.set undefined v i x) = true
         <-> i > ArrayLike.size v)
        /\ (i < ArrayLike.size v ->
            exists v' : ArrayLike.Vector,
              ArrayLike.set undefined v i x
              = Ok (v', ArrayLike.get undefined v i)
              /\ ArrayLike.size v' = ArrayLike.size v
              /\ ArrayLike.at_ undefined v' i = Ok x)
        /\ exists v' : ArrayLike.Vector,
             ArrayLike.set undefined v (ArrayLike.size v) x
             = Ok (v', ArrayLike.get undefined v (ArrayLike.size v))
             /\ ArrayLike.size v' = ArrayLike.size v
             /\ ArrayLike.get undefined v' (ArrayLike.size v) = x
             /\ is_out_of_range
                  (ArrayLike.at_ undefined v' (ArrayLike.size v)) = true).
Proof.
  split.
  - intros v i x. split; [apply set_throws_iff|]. split.
    + intros Hi. exists (Vector.put undefined v i x).
      apply set_below_size, Hi.
    + exists (Vector.mkVector (Vector.items v ++ [x]) (Vector.props v)).
      split; [apply set_at_size|]. split; [reflexivity|].
      assert (Hsz : Vector.size
                      (Vector.mkVector (Vector.items v ++ [x]) (Vector.props v))
                    = Vector.size v + 1).
      { unfold Vector.size, Vector.length. simpl. rewrite length_app. simpl.
        lia. }
      split; [exact Hsz|].
      pose proof (length_nonneg v) as Hl.
      rewrite at_in_range by (rewrite Hsz; unfold Vector.size; lia).
      simpl. unfold Vector.size, Vector.length. rewrite Nat2Z.id.
      rewrite app_nth2 by lia. rewrite Nat.sub_diag. reflexivity.
  - intros v i x. split; [apply object_set_throws_iff|]. split.
    + intros Hi. exists (ArrayLike.put v i x).
      destruct (object_set_up_to_size v i x) as [Hset [Hsize Hget]]; [lia|].
      split; [exact Hset|]. split; [exact Hsize|].
      unfold ArrayLike.at_. rewrite Hsize, Hget.
      destruct (Z.ltb_spec i (ArrayLike.size v)); [reflexivity|lia].
    + exists (ArrayLike.put v (ArrayLike.size v) x).
      destruct (object_set_up_to_size v (ArrayLike.size v) x)
        as [Hset [Hsize Hget]]; [lia|].
      split; [exact Hset|]. split; [exact Hsize|]. split; [exact Hget|].
      unfold ArrayLike.at_. rewrite Hsize, Z.ltb_irrefl. reflexivity.
Qed.

End VectorAccess.

(* ===================================================================== *)
(** * Vector: iteration and swap *)
(* ===================================================================== *)

Section VectorSwap.
Context {T : Type}.
Variable undefined : T.

Local Abbreviation Vec := (@Vector.Vector T).

Lemma value_at_position (source : Vec) (pre rest : list T) (x : T) :
  Vector.items source = pre ++ x :: rest ->
  Vector.value undefined source (Vector.Iter (Z.of_nat (List.length pre))) = Ok x.
Proof.
  intros Hsrc. unfold Vector.value. simpl.
  rewrite at_in_range.
  - rewrite Nat2Z.id, Hsrc, app_nth2 by lia. rewrite Nat.sub_diag. reflexivity.
  - unfold Vector.size, Vector.length. rewrite Hsrc, length_app. simpl. lia.
Qed.

Lemma next_at_position (source : Vec) (pre rest : list T) (x : T) :
  Vector.items source = pre ++ x :: rest ->
  Vector.next source (Vector.Iter (Z.of_nat (List.length pre)))
  = match rest with
    | [] => Vector.end_ source
    | _ :: _ => Vector.Iter (Z.of_nat (List.length (pre ++ [x])))
    end.
Proof.
  intros Hsrc. unfold Vector.next, Vector.size, Vector.length. simpl.
  rewrite Hsrc, length_app. simpl.
  destruct rest as [|y rest]; simpl.
  - destruct (Z.geb_spec (Z.of_nat (List.length pre))
                (Z.of_nat (List.length pre + 1) - 1)); [reflexivity|lia].
  - destruct (Z.geb_spec (Z.of_nat (List.length pre))
                (Z.of_nat (List.length pre + S (S (List.length rest))) - 1)); [lia|].
    rewrite length_app. simpl. f_equal. lia.
Qed.

Lemma not_at_end (n : nat) (source : Vec) :
  Vector.equal_to (Vector.Iter (Z.of_nat n)) (Vector.end_ source) = false.
Proof. unfold Vector.equal_to. simpl. apply Z.eqb_neq. lia. Qed.

(** The copying loop, started inside the source and run up to [end()],
    appends the rest of the source. *)
Lemma push_range_from (source : Vec) (rest : list T) :
  forall (pre : list T) (v : Vec) (fuel : nat),
    Vector.items source = pre ++ rest ->
    rest <> [] ->
    (List.length rest <= fuel)%nat ->
    Vector.push_range undefined fuel source
      (Vector.Iter (Z.of_nat (List.length pre))) (Vector.end_ source) v
    = Some (Ok (Vector.push_all v rest)).
Proof.
  induction rest as [|x rest IH]; intros pre v fuel Hsrc Hne Hfuel.
  - congruence.
  - destruct fuel as [|fuel]; [simpl in Hfuel; lia|].
    simpl Vector.push_range. rewrite not_at_end.
    rewrite (value_at_position source pre rest x Hsrc).
    rewrite (next_at_position source pre rest x Hsrc).
    destruct rest as [|y rest].
    + destruct fuel; reflexivity.
    + rewrite (IH (pre ++ [x]) (Vector.push v x) fuel).
      * unfold Vector.push_all, Vector.push. simpl.
        rewrite <- app_assoc. reflexivity.
      * rewrite <- app_assoc. exact Hsrc.
      * discriminate.
      * simpl in *. lia.
Qed.

Lemma push_range_all (source v : Vec) (fuel : nat) :
  (List.length (Vector.items source) <= fuel)%nat ->
  Vector.push_range undefined fuel source
    (Vector.begin source) (Vector.end_ source) v
  = Some (Ok (Vector.push_all v (Vector.items source))).
Proof.
  intros Hfuel. unfold Vector.begin, Vector.empty, Vector.length.
  destruct (Vector.items source) as [|x rest] eqn:Hitems.
  - simpl. destruct fuel; simpl; unfold retM, Vector.push_all;
      rewrite app_nil_r; destruct v; reflexivity.
  - simpl List.length.
    destruct (Z.eqb_spec (Z.of_nat (S (List.length rest))) 0); [lia|].
    apply (push_range_from source (x :: rest) [] v fuel).
    + exact Hitems.
    + discriminate.
    + exact Hfuel.
Qed.

Lemma collect_from (source : Vec) (rest : list T) :
  forall (pre acc : list T) (fuel : nat),
    Vector.items source = pre ++ rest ->
    rest <> [] ->
    (List.length rest <= fuel)%nat ->
    Vector.collect undefined fuel source
      (Vector.Iter (Z.of_nat (List.length pre))) (Vector.end_ source) acc
    = Some (Ok (acc ++ rest)).
Proof.
  induction rest as [|x rest IH]; intros pre acc fuel Hsrc Hne Hfuel.
  - congruence.
  - destruct fuel as [|fuel]; [simpl in Hfuel; lia|].
    simpl Vector.collect. rewrite not_at_end.
    rewrite (value_at_position source pre rest x Hsrc).
    rewrite (next_at_position source pre rest x Hsrc).
    destruct rest as [|y rest].
    + destruct fuel; reflexivity.
    + rewrite (IH (pre ++ [x]) (acc ++ [x]) fuel).
      * rewrite <- app_assoc. reflexivity.
      * rewrite <- app_assoc. exact Hsrc.
      * discriminate.
      * simpl in *. lia.
Qed.

(** Forward iteration visits the elements in order. *)
Lemma forward_items (v : Vec) (fuel : nat) :
  (List.length (Vector.items v) <= fuel)%nat ->
  Vector.forward undefined fuel v = Some (Ok (Vector.items v)).
Proof.
  intros Hfuel. unfold Vector.forward, Vector.begin, Vector.empty, Vector.length.
  destruct (Vector.items v) as [|x rest] eqn:Hitems.
  - simpl. destruct fuel; reflexivity.
  - simpl List.length.
    destruct (Z.eqb_spec (Z.of_nat (S (List.length rest))) 0); [lia|].
    apply (collect_from v (x :: rest) [] [] fuel).
    + exact Hitems.
    + discriminate.
    + exact Hfuel.
Qed.

Lemma clear_items (v : Vec) :
  Vector.clear v = Vector.mkVector [] (Vector.props v).
Proof.
  unfold Vector.clear, Vector.erase, Vector.erase_by_range,
    Vector.begin, Vector.empty, Vector.length.
  destruct v as [its ps]. destruct its as [|x rest]; [reflexivity|].
  simpl List.length.
  destruct (Z.eqb_spec (Z.of_nat (S (List.length rest))) 0); [lia|].
  reflexivity.
Qed.

Lemma assign_all (v source : Vec) (fuel : nat) :
  (List.length (Vector.items source) <= fuel)%nat ->
  Vector.assign undefined fuel v source
    (Vector.begin source) (Vector.end_ source)
  = Some (Ok (Vector.mkVector (Vector.items source) (Vector.props v))).
Proof.
  intros Hfuel. unfold Vector.assign, Vector.insert, Vector.insert_by_range.
  rewrite clear_items. simpl.
  rewrite push_range_all by exact Hfuel. reflexivity.
Qed.

(** With fuel for the longer of the two vectors, [swap] returns, and the
    two vectors have exchanged their elements. *)
Lemma swap_vectors (A B : Vec) (fuel : nat) :
  (List.length (Vector.items A) <= fuel)%nat ->
  (List.length (Vector.items B) <= fuel)%nat ->
  Vector.swap undefined fuel A B
  = Some (Ok (Vector.mkVector (Vector.items B) (Vector.props A),
              Vector.mkVector (Vector.items A) (Vector.props B))).
Proof.
  intros HA HB. unfold Vector.swap, Vector.construct_from_range.
  rewrite assign_all by exact HA. simpl.
  rewrite assign_all by exact HB. simpl.
  rewrite assign_all by exact HA. reflexivity.
Qed.

End VectorSwap.

(* ===================================================================== *)
(** * Swap *)
(* ===================================================================== *)

(** C9.  [A.swap(B)] exchanges the contents of two containers of one
    type.  For vectors the call returns once the fuel covers both lengths,
    and forward iteration of each vector then yields what the other one
    held; for tree sets and tree multisets the element lists are exchanged
    cell for cell, and the comparators with them.  With [A = [1,2,3]] and
    [B = [10,20]], afterwards [A = [10,20]] and [B = [1,2,3]]. *)
Theorem swap_exchanges_contents :
  (forall (T : Type) (undefined : T) (A B : @Vector.Vector T) (extra : nat),
      let fuel := (List.length (Vector.items A)
                   + List.length (Vector.items B) + extra)%nat in
      exists A' B' : @Vector.Vector T,
        Vector.swap undefined fuel A B = Some (Ok (A', B'))
        /\ Vector.forward undefined fuel A' = Some (Ok (Vector.items B))
        /\ Vector.forward undefined fuel B' = Some (Ok (Vector.items A)))
  /\ (forall (T : Type) (C : IComparable T) (A B : TreeSet.TreeSet T),
        TreeSet.forward_cells (fst (TreeSet.swap A B)) = TreeSet.forward_cells B
        /\ TreeSet.forward_cells (snd (TreeSet.swap A B)) = TreeSet.forward_cells A
        /\ TreeSet.key_comp (fst (TreeSet.swap A B)) = TreeSet.key_comp B
        /\ TreeSet.key_comp (snd (TreeSet.swap A B)) = TreeSet.key_comp A)
  /\ (forall (T : Type) (C : IComparable T) (A B : TreeMultiSet.TreeMultiSet T),
        TreeMultiSet.forward_cells (fst (TreeMultiSet.swap A B))
          = TreeMultiSet.forward_cells B
        /\ TreeMultiSet.forward_cells (snd (TreeMultiSet.swap A B))
          = TreeMultiSet.forward_cells A
        /\ TreeMultiSet.key_comp (fst (TreeMultiSet.swap A B))
          = TreeMultiSet.key_comp B
        /\ TreeMultiSet.key_comp (snd (TreeMultiSet.swap A B))
          = TreeMultiSet.key_comp A)
  /\ Vector.swap Samples.undefined 3
       (Samples.vector_of [1; 2; 3]) (Samples.vector_of [10; 20])
     = Some (Ok (Samples.vector_of [10; 20], Samples.vector_of [1; 2; 3]))
  /\ TreeSet.forward
       (fst (TreeSet.swap (Samples.set_of [1; 2; 3]) (Samples.set_of [10; 20])))
     = [10; 20]
  /\ TreeSet.forward
       (snd (TreeSet.swap (Samples.set_of [1; 2; 3]) (Samples.set_of [10; 20])))
     = [1; 2; 3].
Proof.
  split; [|repeat split].
  intros T undefined A B extra fuel.
  exists (Vector.mkVector (Vector.items B) (Vector.props A)),
         (Vector.mkVector (Vector.items A) (Vector.props B)).
  split; [|split].
  - apply swap_vectors; subst fuel; lia.
  - apply (forward_items undefined
             (Vector.mkVector (Vector.items B) (Vector.props A))).
    simpl. subst fuel. lia.
  - apply (forward_items undefined
             (Vector.mkVector (Vector.items A) (Vector.props B))).
    simpl. subst fuel. lia.
Qed.

(* ===================================================================== *)
(** * TreeSet: how [insert] decides *)
(* ===================================================================== *)

Section UniqueInsert.
Import Base.
Context {T : Type} `{IComparable T}.

Lemma cells_split (cs : list (cell T)) (it : SetIterator T) :
  cells_until cs it ++ cells_from cs it = cs.
Proof.
  destruct it as [c|].
  - induction cs as [|x cs IH]; simpl; [reflexivity|].
    destruct (same_cell x c); simpl; [reflexivity|]. rewrite IH. reflexivity.
  - induction cs as [|x cs IH]; simpl; [reflexivity|].
    destruct cs; simpl in *; rewrite ?app_nil_r in *; congruence.
Qed.




End UniqueInsert.

(* ===================================================================== *)
(** * Tree sets on sample inputs *)
(* ===================================================================== *)

Section Findings.
Import Base Samples.


(** C2.  [TreeSet.upper_bound] calls [tree_.lower_bound]: it is the same
    function as [TreeSet.lower_bound].  On the set [{1, 2, 3}] the call
    [upper_bound(2)] returns the iterator to [2], not to [3];
    [TreeMultiSet.upper_bound], which calls [tree_.upper_bound], returns
    the iterator to [3]. *)
Theorem treeset_upper_bound_returns_lower_bound :
  (forall (T : Type) (C : IComparable T) (s : TreeSet.TreeSet T) (k : T),
      TreeSet.upper_bound s k = TreeSet.lower_bound s k)
  /\ TreeSet.forward (set_of [1; 2; 3]) = [1; 2; 3]
  /\ TreeSet.upper_bound (set_of [1; 2; 3]) 2 = It (mkCell 1 2)
  /\ TreeMultiSet.upper_bound (multiset_of [1; 2; 3]) 2 = It (mkCell 2 3).
Proof. repeat split. Qed.

(** C3.  [handle_erase] calls [tree_.erase(last)] once per erased cell,
    never [tree_.erase(first)].  Erasing the first element of [{1, 2, 3}]
    leaves the list [2, 3] and a tree whose in-order traversal is
    [1, 3]; erasing the whole range leaves an empty list and the tree
    untouched.  The multiset behaves the same way. *)
Theorem erase_unlinks_the_wrong_node :
  let s := set_of [1; 2; 3] in
  let one := fst (TreeSet.erase s (TreeSet.begin s)) in
  let all := fst (TreeSet.erase_range s (TreeSet.begin s) (TreeSet.end_ s)) in
  let m := multiset_of [1; 2; 3] in
  let m_one := fst (TreeMultiSet.erase m (TreeMultiSet.begin m)) in
  inorder (root_ (TreeSet.tree_ s)) = TreeSet.forward_cells s
  /\ TreeSet.forward_cells one = [mkCell 1 2; mkCell 2 3]
  /\ inorder (root_ (TreeSet.tree_ one)) = [mkCell 0 1; mkCell 2 3]
  /\ TreeSet.forward_cells all = []
  /\ inorder (root_ (TreeSet.tree_ all)) = [mkCell 0 1; mkCell 1 2; mkCell 2 3]
  /\ TreeMultiSet.forward_cells m_one = [mkCell 1 2; mkCell 2 3]
  /\ inorder (root_ (TreeMultiSet.tree_ m_one)) = [mkCell 0 1; mkCell 2 3].
Proof. repeat split. Qed.

(** C5.  On the set [{1, 3}] with the hint at [1] and the value [2] the
    hint is right: [less(1, 2)] and [less(2, 3)].  [insert_by_hint] then
    passes the hint's own list position to [data_.insert], which links
    the new cell in before it: the list becomes [2, 1, 3], while the full
    insert gives [1, 2, 3].  [TreeMultiSet.insert_by_hint] does the same. *)
Theorem hint_insert_links_before_the_hint :
  let s := set_of [1; 3] in
  let hint := TreeSet.begin s in
  hint = It (mkCell 0 1)
  /\ TreeSet.has s 2 = false
  /\ TreeSet.key_comp s 1 2 = true
  /\ TreeSet.it_next s hint = It (mkCell 1 3)
  /\ TreeSet.key_comp s 2 3 = true
  /\ option_map (fun r => (TreeSet.forward (fst r), snd r))
       (TreeSet.insert_hint s hint 2)
     = Some ([2; 1; 3], It (mkCell 2 2))
  /\ TreeSet.forward (fst (TreeSet.insert s 2)) = [1; 2; 3]
  /\ option_map (fun r => TreeMultiSet.forward (fst r))
       (TreeMultiSet.insert_by_hint (multiset_of [1; 3])
          (TreeMultiSet.begin (multiset_of [1; 3])) 2)
     = Some [2; 1; 3].
Proof. repeat split. Qed.

(** C6, as stated, fails.  The set [{1, 2, 3}] holds [2]; a hinted insert
    of [2] returns [end()], not the iterator to the cell of [2]. *)
Lemma hint_insert_of_present_value_returns_end :
  let s := set_of [1; 2; 3] in
  TreeSet.find s 2 = It (mkCell 1 2)
  /\ option_map snd (TreeSet.insert_hint s (TreeSet.begin s) 2) = Some End
  /\ ~ (exists c : cell Z,
          In c (TreeSet.forward_cells s)
          /\ option_map snd (TreeSet.insert_hint s (TreeSet.begin s) 2)
             = Some (It c)).
Proof.
  repeat split. intros [c [_ Hc]]. vm_compute in Hc. discriminate.
Qed.

(** C7.  On the set [{1, 2, 3}], [equal_range(2)] is the pair of the
    iterators to [2] and to [3], and [lower_bound(2)] is its first
    component; but the public [upper_bound(2)] is the iterator to [2],
    not the second component.  For the multiset the pair is
    [(lower_bound(k), upper_bound(k))] for every key. *)
Theorem treeset_equal_range_differs_from_upper_bound :
  let s := set_of [1; 2; 3] in
  TreeSet.equal_range s 2 = (It (mkCell 1 2), It (mkCell 2 3))
  /\ TreeSet.lower_bound s 2 = It (mkCell 1 2)
  /\ TreeSet.upper_bound s 2 = It (mkCell 1 2)
  /\ snd (TreeSet.equal_range s 2) <> TreeSet.upper_bound s 2
  /\ (forall (T : Type) (C : IComparable T)
             (m : TreeMultiSet.TreeMultiSet T) (k : T),
        TreeMultiSet.equal_range m k
        = (TreeMultiSet.lower_bound m k, TreeMultiSet.upper_bound m k)).
Proof. repeat split. vm_compute. discriminate. Qed.


End Findings.

(* ===================================================================== *)
(** * The tree index and the list under a total order *)
(* ===================================================================== *)

Section TotalOrder.
Import Base Shape.
Context {T : Type} `{IComparable T}.

(** [std.less] is a strict total order on [T] and [std.equal_to] decides
    equality, as for numbers and strings. *)
Hypothesis less_irrefl : forall a : T, less a a = false.
Hypothesis less_trans :
  forall a b c : T, less a b = true -> less b c = true -> less a c = true.
Hypothesis less_total :
  forall a b : T, less a b = false -> less b a = false -> a = b.
Hypothesis equal_to_spec : forall a b : T, equal_to a b = true <-> a = b.

Lemma less_asym (a b : T) : less a b = true -> less b a = false.
Proof.
  intros Hab. destruct (less b a) eqn:Hba; [|reflexivity].
  rewrite <- (less_irrefl a). symmetry. exact (less_trans a b a Hab Hba).
Qed.

Lemma less_then_not_greater (a b c : T) :
  less a b = true -> less c b = false -> less a c = true.
Proof.
  intros Hab Hcb. destruct (less b c) eqn:Hbc.
  - exact (less_trans a b c Hab Hbc).
  - rewrite <- (less_total b c Hbc Hcb). exact Hab.
Qed.

Lemma not_greater_then_less (a b c : T) :
  less b a = false -> less b c = true -> less a c = true.
Proof.
  intros Hba Hbc. destruct (less a b) eqn:Hab.
  - exact (less_trans a b c Hab Hbc).
  - rewrite (less_total a b Hab Hba). exact Hbc.
Qed.

Lemma not_greater_trans (a b c : T) :
  less b a = false -> less c b = false -> less c a = false.
Proof.
  intros Hba Hcb. destruct (less c a) eqn:Hca; [|reflexivity].
  rewrite <- Hcb. symmetry. exact (less_then_not_greater c a b Hca Hba).
Qed.

(** ** Ascending sequences *)

Lemma ascending_app (a b : list (cell T)) :
  ascending (a ++ b) <->
  ascending a /\ ascending b
  /\ Forall (fun x => Forall (fun y => less (cval y) (cval x) = false) b) a.
Proof.
  induction a as [|x a IH]; simpl.
  - intuition.
  - rewrite IH, Forall_app. split.
    + intros [[Ha Hb] [Hsa [Hsb Hab]]]. repeat split; auto.
    + intros [[Ha Hsa] [Hsb Hab]]. inversion Hab; subst. repeat split; auto.
Qed.

Lemma ascending_insert (a b : list (cell T)) (n : cell T) :
  ascending (a ++ b) ->
  Forall (fun x => less (cval n) (cval x) = false) a ->
  Forall (fun y => less (cval y) (cval n) = false) b ->
  ascending (a ++ n :: b).
Proof.
  intros Hab Ha Hb. apply ascending_app in Hab. destruct Hab as [Hsa [Hsb Hab]].
  apply ascending_app. simpl. repeat split; auto.
  rewrite Forall_forall in *. intros x Hx. constructor.
  - apply Ha, Hx.
  - apply Hab, Hx.
Qed.

(** ** First cell not less than a key *)

Lemma first_not_less_app (k : T) (a b : list (cell T)) :
  first_not_less k (a ++ b)
  = match first_not_less k a with
    | Some x => Some x
    | None => first_not_less k b
    end.
Proof.
  unfold first_not_less. induction a as [|x a IH]; simpl; [reflexivity|].
  destruct (negb (less (cval x) k)); [reflexivity|exact IH].
Qed.

Lemma first_not_less_some (k : T) (l : list (cell T)) (c : cell T) :
  first_not_less k l = Some c ->
  exists a b, l = a ++ c :: b
              /\ Forall (fun x => less (cval x) k = true) a
              /\ less (cval c) k = false.
Proof.
  unfold first_not_less. induction l as [|x l IH]; simpl; [discriminate|].
  destruct (less (cval x) k) eqn:Hx; simpl.
  - intros Hc. destruct (IH Hc) as [a [b [Hl [Ha Hck]]]].
    exists (x :: a), b. subst l. repeat split; auto.
  - intros Hc. inversion Hc; subst. exists [], l. repeat split; auto.
Qed.

Lemma first_not_less_none (k : T) (l : list (cell T)) :
  first_not_less k l = None ->
  Forall (fun x => less (cval x) k = true) l.
Proof.
  unfold first_not_less. intros Hnone. rewrite Forall_forall. intros x Hx.
  pose proof (find_none _ _ Hnone x Hx) as Hn. simpl in Hn.
  destruct (less (cval x) k); [reflexivity|discriminate].
Qed.

Lemma first_not_less_none_iff (k : T) (l : list (cell T)) :
  Forall (fun x => less (cval x) k = true) l -> first_not_less k l = None.
Proof.
  unfold first_not_less. induction 1 as [|x l Hx _ IH]; simpl; [reflexivity|].
  rewrite Hx. exact IH.
Qed.

(** A cell of value [v] joins [a ++ b] between [a] and [b]; no cell of
    [a] is greater than [v], and either every cell of [b] is greater or
    [a] holds a cell of value [v] already. *)
Lemma first_not_less_insert (a b : list (cell T)) (n : cell T) (k : T) :
  Forall (fun x => less (cval n) (cval x) = false) a ->
  (Forall (fun y => less (cval n) (cval y) = true) b
   \/ exists y, In y a /\ cval y = cval n) ->
  first_not_less k (a ++ n :: b)
  = first_after (cval n) n k (first_not_less k (a ++ b)).
Proof.
  intros Ha Hside. unfold first_after.
  rewrite !first_not_less_app.
  change (first_not_less k (n :: b))
    with (if negb (less (cval n) k) then Some n else first_not_less k b).
  destruct (less (cval n) k) eqn:Hnk; simpl; [reflexivity|].
  destruct (first_not_less k a) as [x|] eqn:Hfa.
  - destruct (first_not_less_some k a x Hfa) as [a1 [a2 [Hsplit _]]].
    rewrite Forall_forall in Ha. rewrite (Ha x); [reflexivity|].
    subst a. apply in_or_app. right. left. reflexivity.
  - destruct (first_not_less k b) as [x|] eqn:Hfb; [|reflexivity].
    destruct Hside as [Hb | [y [Hy Hyv]]].
    + destruct (first_not_less_some k b x Hfb) as [b1 [b2 [Hsplit _]]].
      rewrite Forall_forall in Hb. rewrite (Hb x); [reflexivity|].
      subst b. apply in_or_app. right. left. reflexivity.
    + pose proof (first_not_less_none k a Hfa) as Hall.
      rewrite Forall_forall in Hall. specialize (Hall y Hy).
      rewrite Hyv in Hall. congruence.
Qed.


(** ** Rebalancing keeps the in-order sequence *)

Lemma inorder_make_black (n : XTreeNode T) :
  inorder (make_black n) = inorder n.
Proof. destruct n; reflexivity. Qed.

Ltac flatten_inorder :=
  simpl; repeat (rewrite <- app_assoc; simpl); reflexivity.

Lemma inorder_fix_left (l r : XTreeNode T) (x : cell T) :
  inorder (fix_left l x r) = inorder l ++ x :: inorder r.
Proof.
  destruct l as [|[] [|[] ? ? ?] ? [|[] ? ? ?]]; flatten_inorder.
Qed.

Lemma inorder_fix_right (l r : XTreeNode T) (x : cell T) :
  inorder (fix_right l x r) = inorder l ++ x :: inorder r.
Proof.
  destruct r as [|[] [|[] ? ? ?] ? [|[] ? ? ?]]; flatten_inorder.
Qed.

(** ** Linking a node *)

Lemma enter_before (c x : cell T) (a b : list (cell T)) :
  less (cval c) (cval x) = true ->
  enter c (a ++ x :: b) = enter c a ++ x :: b.
Proof.
  intros Hcx. induction a as [|y a IH]; simpl.
  - rewrite Hcx. reflexivity.
  - destruct (less (cval c) (cval y)); [reflexivity|]. rewrite IH. reflexivity.
Qed.

Lemma enter_behind (c x : cell T) (a b : list (cell T)) :
  less (cval c) (cval x) = false ->
  Forall (fun y => less (cval x) (cval y) = false) a ->
  enter c (a ++ x :: b) = a ++ x :: enter c b.
Proof.
  intros Hcx Ha. induction Ha as [|y a Hy _ IH]; simpl.
  - rewrite Hcx. reflexivity.
  - rewrite (not_greater_trans (cval y) (cval x) (cval c) Hy Hcx).
    rewrite IH. reflexivity.
Qed.

Lemma ascending_node (a b : list (cell T)) (x : cell T) :
  ascending (a ++ x :: b) ->
  ascending a /\ ascending b
  /\ Forall (fun y => less (cval x) (cval y) = false) a
  /\ Forall (fun y => less (cval y) (cval x) = false) b.
Proof.
  intros Hasc. apply ascending_app in Hasc.
  destruct Hasc as [Ha [[Hxb Hb] Hab]]. repeat split; auto.
  rewrite Forall_forall in *. intros y Hy.
  specialize (Hab y Hy). inversion Hab; subst. assumption.
Qed.

Lemma inorder_link (c : cell T) (n : XTreeNode T) :
  ascending (inorder n) ->
  inorder (link less c n) = enter c (inorder n).
Proof.
  induction n as [|col l IHl x r IHr]; intros Hasc; [reflexivity|].
  simpl in Hasc. destruct (ascending_node _ _ _ Hasc) as [Hl [Hr [Hlx Hxr]]].
  simpl. destruct (less (cval c) (cval x)) eqn:Hcx.
  - rewrite (enter_before c x _ _ Hcx), <- (IHl Hl).
    destruct col; [reflexivity|apply inorder_fix_left].
  - rewrite (enter_behind c x _ _ Hcx Hlx), <- (IHr Hr).
    destruct col; [reflexivity|apply inorder_fix_right].
Qed.

Lemma enter_split (c : cell T) (l : list (cell T)) :
  ascending l ->
  exists a b,
    l = a ++ b
    /\ enter c l = a ++ c :: b
    /\ Forall (fun x => less (cval c) (cval x) = false) a
    /\ Forall (fun y => less (cval c) (cval y) = true) b.
Proof.
  induction l as [|x l IH]; intros Hasc.
  - exists [], []. repeat split; constructor.
  - destruct Hasc as [Hx Hl]. simpl.
    destruct (less (cval c) (cval x)) eqn:Hcx.
    + exists [], (x :: l). repeat split; auto. constructor; [exact Hcx|].
      rewrite Forall_forall in *. intros y Hy.
      exact (less_then_not_greater (cval c) (cval x) (cval y) Hcx (Hx y Hy)).
    + destruct (IH Hl) as [a [b [Hab [Hent [Ha Hb]]]]].
      exists (x :: a), b. subst l. rewrite Hent. repeat split; auto.
Qed.

(** ** Searching the tree *)

Lemma find_node_first_not_less (n : XTreeNode T) (k : T) :
  ascending (inorder n) ->
  find_node less n k = first_not_less k (inorder n).
Proof.
  induction n as [|col l IHl x r IHr]; intros Hasc; [reflexivity|].
  simpl in Hasc. destruct (ascending_node _ _ _ Hasc) as [Hl [Hr [Hlx Hxr]]].
  simpl. rewrite first_not_less_app.
  change (first_not_less k (x :: inorder r))
    with (if negb (less (cval x) k) then Some x else first_not_less k (inorder r)).
  destruct (less (cval x) k) eqn:Hxk; simpl.
  - rewrite (IHr Hr).
    rewrite (first_not_less_none_iff k (inorder l)); [reflexivity|].
    rewrite Forall_forall in *. intros y Hy.
    exact (not_greater_then_less (cval y) (cval x) k (Hlx y Hy) Hxk).
  - rewrite (IHl Hl). reflexivity.
Qed.


(** ** Positions in the element list *)

Lemma cells_until_end (l : list (cell T)) : cells_until l End = l.
Proof. induction l as [|x l IH]; simpl; [reflexivity|]. rewrite IH. reflexivity. Qed.

Lemma cells_from_end (l : list (cell T)) : cells_from l End = [].
Proof. destruct l; reflexivity. Qed.

Lemma same_cell_refl (c : cell T) : same_cell c c = true.
Proof. apply Nat.eqb_refl. Qed.

Lemma same_cell_other (x c : cell T) (ids : list nat) :
  In (cid x) ids -> ~ In (cid c) ids -> same_cell x c = false.
Proof.
  intros Hx Hc. unfold same_cell. apply Nat.eqb_neq. intros Heq.
  apply Hc. rewrite <- Heq. exact Hx.
Qed.

Lemma cells_until_at (a b : list (cell T)) (c : cell T) :
  ~ In (cid c) (map cid a) ->
  cells_until (a ++ c :: b) (It c) = a.
Proof.
  induction a as [|x a IH]; intros Hfresh; simpl.
  - rewrite same_cell_refl. reflexivity.
  - rewrite (same_cell_other x c (map cid (x :: a))); simpl; auto.
    rewrite IH; [reflexivity|]. intros Hin. apply Hfresh. right. exact Hin.
Qed.

Lemma cells_from_at (a b : list (cell T)) (c : cell T) :
  ~ In (cid c) (map cid a) ->
  cells_from (a ++ c :: b) (It c) = c :: b.
Proof.
  induction a as [|x a IH]; intros Hfresh; simpl.
  - rewrite same_cell_refl. reflexivity.
  - rewrite (same_cell_other x c (map cid (x :: a))); simpl; auto.
    apply IH. intros Hin. apply Hfresh. right. exact Hin.
Qed.

Lemma distinct_before (a b : list (cell T)) (c : cell T) :
  NoDup (map cid (a ++ c :: b)) -> ~ In (cid c) (map cid a).
Proof.
  rewrite map_app. simpl. intros Hnd Hin.
  apply NoDup_remove_2 in Hnd. apply Hnd. apply in_or_app. left. exact Hin.
Qed.

Lemma next_at (a b : list (cell T)) (c : cell T) :
  NoDup (map cid (a ++ c :: b)) ->
  next (a ++ c :: b) (It c)
  = match b with
    | [] => End
    | y :: _ => It y
    end.
Proof.
  intros Hnd. unfold next.
  rewrite (cells_from_at a b c (distinct_before a b c Hnd)).
  destruct b; reflexivity.
Qed.

(** Where [data_.insert(it.next(), val)] links the new cell: right
    behind the cell of [it]. *)
Lemma position_behind (a b : list (cell T)) (c : cell T) :
  NoDup (map cid (a ++ c :: b)) ->
  cells_until (a ++ c :: b) (next (a ++ c :: b) (It c)) = a ++ [c]
  /\ cells_from (a ++ c :: b) (next (a ++ c :: b) (It c)) = b.
Proof.
  intros Hnd. rewrite (next_at a b c Hnd). destruct b as [|y b].
  - rewrite cells_until_end, cells_from_end. split; reflexivity.
  - assert (Hy : ~ In (cid y) (map cid (a ++ [c]))).
    { apply (distinct_before (a ++ [c]) b y).
      rewrite <- app_assoc. exact Hnd. }
    change (a ++ c :: y :: b) with (a ++ [c] ++ y :: b).
    rewrite app_assoc.
    rewrite (cells_until_at (a ++ [c]) b y Hy).
    rewrite (cells_from_at (a ++ [c]) b y Hy). split; reflexivity.
Qed.

(** ** The values after an insertion *)

Lemma sorted_insert_front (v : T) (l : list T) :
  Forall (fun y => less y v = false) l ->
  sorted_insert less v l = v :: l.
Proof.
  induction 1 as [|y l Hy _ IH]; simpl; [reflexivity|].
  destruct (less v y) eqn:Hvy; [reflexivity|].
  rewrite IH. rewrite (less_total v y Hvy Hy). reflexivity.
Qed.

Lemma sorted_insert_between (v : T) (a b : list T) :
  Forall (fun x => less v x = false) a ->
  Forall (fun y => less y v = false) b ->
  sorted_insert less v (a ++ b) = a ++ v :: b.
Proof.
  intros Ha Hb. induction Ha as [|x a Hx _ IH]; simpl.
  - apply sorted_insert_front, Hb.
  - rewrite Hx, IH. reflexivity.
Qed.

(** ** One insertion

    The new cell is linked into the list between [a] and [b] and into the
    tree where the comparator leads; list and tree stay well-formed
    together. *)
Lemma place_step (d : List T) (t : AtomicTree T) (it : SetIterator T)
    (v : T) (a b : list (cell T)) :
  well_formed d t ->
  cells d = a ++ b ->
  cells_until (cells d) it = a ->
  cells_from (cells d) it = b ->
  Forall (fun x => less v (cval x) = false) a ->
  Forall (fun y => less (cval y) v = false) b ->
  (Forall (fun y => less v (cval y) = true) b
   \/ exists y, In y a /\ cval y = v) ->
  let n := mkCell (fresh d) v in
  list_insert d it v = (mkList (a ++ n :: b) (S (fresh d)), It n)
  /\ well_formed (mkList (a ++ n :: b) (S (fresh d))) (tree_insert t (It n))
  /\ map cval (a ++ n :: b) = sorted_insert less v (map cval (cells d)).
Proof.
  intros [Hcmp [Htree [Hlist [Hnd [Hold Hagree]]]]] Hsplit Huntil Hfrom Ha Hb Hside n.
  split; [|split].
  - unfold list_insert. rewrite Huntil, Hfrom. reflexivity.
  - unfold well_formed. simpl. rewrite Hcmp.
    rewrite inorder_make_black, (inorder_link n (root_ t) Htree).
    destruct (enter_split n (inorder (root_ t)) Htree)
      as [ta [tb [Htsplit [Henter [Hta Htb]]]]].
    rewrite Henter. rewrite Hsplit in Hlist, Hnd, Hold.
    split; [reflexivity|]. split; [|split; [|split; [|split]]].
    + apply ascending_insert; [rewrite <- Htsplit; exact Htree|exact Hta|].
      rewrite Forall_forall in *. intros y Hy. apply less_asym, Htb, Hy.
    + apply ascending_insert; assumption.
    + rewrite map_app. simpl. rewrite map_app in Hnd.
      apply (NoDup_Add (Add_app (fresh d) (map cid a) (map cid b))).
      split; [exact Hnd|]. rewrite <- map_app. intros Hin.
      apply in_map_iff in Hin. destruct Hin as [x [Hid Hx]].
      rewrite Forall_forall in Hold. specialize (Hold x Hx). lia.
    + apply Forall_app in Hold. destruct Hold as [Holda Holdb].
      apply Forall_app. split; [|constructor; [simpl; lia|]].
      * eapply Forall_impl; [|exact Holda]. simpl. intros; lia.
      * eapply Forall_impl; [|exact Holdb]. simpl. intros; lia.
    + intros k.
      rewrite (first_not_less_insert ta tb n k Hta (or_introl Htb)).
      rewrite (first_not_less_insert a b n k Ha Hside).
      rewrite <- Htsplit, <- Hsplit, Hagree. reflexivity.
  - rewrite Hsplit, !map_app. simpl.
    rewrite sorted_insert_between; [reflexivity| |].
    + rewrite Forall_forall in *. intros x Hx.
      apply in_map_iff in Hx. destruct Hx as [y [Hy Hiny]]. subst x. auto.
    + rewrite Forall_forall in *. intros x Hx.
      apply in_map_iff in Hx. destruct Hx as [y [Hy Hiny]]. subst x. auto.
Qed.


(** ** What the tree search returns in a well-formed container *)

Lemma tree_find_first_not_less (d : List T) (t : AtomicTree T) (k : T) :
  well_formed d t ->
  tree_find t k = first_not_less k (cells d).
Proof.
  intros [Hcmp [Htree [_ [_ [_ Hagree]]]]].
  unfold tree_find. rewrite Hcmp, <- Hagree.
  apply find_node_first_not_less, Htree.
Qed.

Lemma well_formed_empty : well_formed (@empty_list T) (mkTree Leaf less).
Proof.
  unfold well_formed. simpl. repeat split; constructor.
Qed.

Lemma all_less_not_greater (v : T) (l : list (cell T)) :
  Forall (fun x => less (cval x) v = true) l ->
  Forall (fun x => less v (cval x) = false) l.
Proof.
  apply Forall_impl. intros x Hx. apply less_asym, Hx.
Qed.

(** The insertion at [end()], when no cell is not less than [v]. *)
Lemma place_at_end (d : List T) (t : AtomicTree T) (v : T) :
  well_formed d t ->
  first_not_less v (cells d) = None ->
  let n := mkCell (fresh d) v in
  list_insert d End v = (mkList (cells d ++ [n]) (S (fresh d)), It n)
  /\ well_formed (mkList (cells d ++ [n]) (S (fresh d))) (tree_insert t (It n))
  /\ map cval (cells d ++ [n]) = sorted_insert less v (map cval (cells d)).
Proof.
  intros Hwf Hnone.
  apply (place_step d t End v (cells d) []); auto.
  - symmetry. apply app_nil_r.
  - apply cells_until_end.
  - apply cells_from_end.
  - apply all_less_not_greater, first_not_less_none, Hnone.
Qed.

(** The insertion in front of the first cell not less than [v], when
    that cell is greater than [v]. *)
Lemma place_in_front (d : List T) (t : AtomicTree T) (v : T)
    (a b : list (cell T)) (c : cell T) :
  well_formed d t ->
  cells d = a ++ c :: b ->
  Forall (fun x => less (cval x) v = true) a ->
  less (cval c) v = false ->
  cval c <> v ->
  let n := mkCell (fresh d) v in
  list_insert d (It c) v = (mkList (a ++ n :: c :: b) (S (fresh d)), It n)
  /\ well_formed (mkList (a ++ n :: c :: b) (S (fresh d)))
       (tree_insert t (It n))
  /\ map cval (a ++ n :: c :: b) = sorted_insert less v (map cval (cells d)).
Proof.
  intros Hwf Hsplit Ha Hcv Hne.
  pose proof Hwf as [_ [_ [Hlist [Hnd _]]]].
  rewrite Hsplit in Hlist, Hnd.
  destruct (ascending_node _ _ _ Hlist) as [_ [_ [_ Hcb]]].
  assert (Hvc : less v (cval c) = true).
  { destruct (less v (cval c)) eqn:Hvc; [reflexivity|].
    exfalso. apply Hne. symmetry. apply less_total; assumption. }
  apply (place_step d t (It c) v a (c :: b)); auto.
  - rewrite Hsplit. apply cells_until_at, (distinct_before a b c Hnd).
  - rewrite Hsplit. apply cells_from_at, (distinct_before a b c Hnd).
  - apply all_less_not_greater, Ha.
  - constructor; [exact Hcv|].
    rewrite Forall_forall in *. intros y Hy.
    exact (not_greater_trans v (cval c) (cval y) Hcv (Hcb y Hy)).
  - left. constructor; [exact Hvc|].
    rewrite Forall_forall in *. intros y Hy.
    exact (less_then_not_greater v (cval c) (cval y) Hvc (Hcb y Hy)).
Qed.

(** The insertion right behind a cell of value [v]. *)
Lemma place_behind (d : List T) (t : AtomicTree T) (v : T)
    (a b : list (cell T)) (c : cell T) :
  well_formed d t ->
  cells d = a ++ c :: b ->
  Forall (fun x => less (cval x) v = true) a ->
  cval c = v ->
  let n := mkCell (fresh d) v in
  list_insert d (next (cells d) (It c)) v
    = (mkList (a ++ c :: n :: b) (S (fresh d)), It n)
  /\ well_formed (mkList (a ++ c :: n :: b) (S (fresh d)))
       (tree_insert t (It n))
  /\ map cval (a ++ c :: n :: b) = sorted_insert less v (map cval (cells d)).
Proof.
  intros Hwf Hsplit Ha Hcv.
  pose proof Hwf as [_ [_ [Hlist [Hnd _]]]].
  rewrite Hsplit in Hlist, Hnd.
  destruct (ascending_node _ _ _ Hlist) as [_ [_ [_ Hcb]]].
  destruct (position_behind a b c Hnd) as [Huntil Hfrom].
  intros n.
  replace (a ++ c :: n :: b) with ((a ++ [c]) ++ n :: b)
    by (rewrite <- app_assoc; reflexivity).
  apply (place_step d t (next (cells d) (It c)) v (a ++ [c]) b); auto.
  - rewrite Hsplit, <- app_assoc. reflexivity.
  - rewrite Hsplit. exact Huntil.
  - rewrite Hsplit. exact Hfrom.
  - apply Forall_app. split; [apply all_less_not_greater, Ha|].
    constructor; [|constructor]. rewrite Hcv. apply less_irrefl.
  - rewrite <- Hcv. exact Hcb.
  - right. exists c. split; [|exact Hcv].
    apply in_or_app. right. left. reflexivity.
Qed.


(** ** TreeMultiSet: one insertion, and a sequence of insertions *)

Lemma multiset_insert_step (s : TreeMultiSet.TreeMultiSet T) (v : T) :
  well_formed (TreeMultiSet.data_ s) (TreeMultiSet.tree_ s) ->
  well_formed (TreeMultiSet.data_ (fst (TreeMultiSet.insert_by_val s v)))
              (TreeMultiSet.tree_ (fst (TreeMultiSet.insert_by_val s v)))
  /\ TreeMultiSet.forward (fst (TreeMultiSet.insert_by_val s v))
     = sorted_insert less v (TreeMultiSet.forward s).
Proof.
  intros Hwf.
  unfold TreeMultiSet.insert_by_val, TreeMultiSet.place,
    TreeMultiSet.handle_insert, TreeMultiSet.it_next, TreeMultiSet.end_,
    TreeMultiSet.forward.
  rewrite (tree_find_first_not_less _ _ v Hwf).
  destruct (first_not_less v (cells (TreeMultiSet.data_ s))) as [c|] eqn:Hfind.
  - destruct (first_not_less_some _ _ _ Hfind) as [a [b [Hsplit [Ha Hcv]]]].
    destruct (equal_to (cval c) v) eqn:Heq.
    + apply equal_to_spec in Heq.
      destruct (place_behind _ _ v a b c Hwf Hsplit Ha Heq) as [Hins [Hwf' Hvals]].
      rewrite Hins. simpl. split; assumption.
    + rewrite Hcv.
      assert (Hne : cval c <> v).
      { intros Hcontra. apply equal_to_spec in Hcontra. congruence. }
      destruct (place_in_front _ _ v a b c Hwf Hsplit Ha Hcv Hne)
        as [Hins [Hwf' Hvals]].
      rewrite Hins. simpl. split; assumption.
  - destruct (place_at_end _ _ v Hwf Hfind) as [Hins [Hwf' Hvals]].
    rewrite Hins. simpl. split; assumption.
Qed.

Lemma multiset_insert_all (vals : list T) :
  forall s : TreeMultiSet.TreeMultiSet T,
    well_formed (TreeMultiSet.data_ s) (TreeMultiSet.tree_ s) ->
    TreeMultiSet.forward (TreeMultiSet.insert_all s vals)
    = fold_left (fun acc x => sorted_insert less x acc) vals
        (TreeMultiSet.forward s).
Proof.
  unfold TreeMultiSet.insert_all.
  induction vals as [|v vals IH]; intros s Hwf; cbn [fold_left]; [reflexivity|].
  destruct (multiset_insert_step s v Hwf) as [Hwf' Hvals].
  rewrite (IH _ Hwf'), Hvals. reflexivity.
Qed.

Lemma multiset_round_trip (vals : list T) :
  TreeMultiSet.forward (TreeMultiSet.insert_all TreeMultiSet.construct vals)
  = sort_stable less vals.
Proof.
  apply (multiset_insert_all vals TreeMultiSet.construct).
  exact well_formed_empty.
Qed.

(** ** TreeSet: one insertion, and a sequence of insertions *)

Lemma in_sorted_insert (x v : T) (l : list T) :
  In x (sorted_insert less v l) <-> x = v \/ In x l.
Proof.
  induction l as [|y l IH]; simpl.
  - intuition.
  - destruct (less v y); simpl; [intuition|]. rewrite IH. intuition.
Qed.

(** In a well-formed container the search for a value it holds ends at a
    cell of that value. *)
Lemma held_value_found (d : List T) (t : AtomicTree T) (v : T) :
  well_formed d t ->
  In v (map cval (cells d)) ->
  exists c, first_not_less v (cells d) = Some c /\ In c (cells d) /\ cval c = v.
Proof.
  intros Hwf Hin. pose proof Hwf as [_ [_ [Hlist _]]].
  apply in_map_iff in Hin. destruct Hin as [c0 [Hc0 Hin]].
  destruct (first_not_less v (cells d)) as [c|] eqn:Hfind.
  - destruct (first_not_less_some _ _ _ Hfind) as [a [b [Hsplit [Ha Hcv]]]].
    exists c. split; [reflexivity|]. split.
    { rewrite Hsplit. apply in_or_app. right. left. reflexivity. }
    rewrite Hsplit in Hin, Hlist. apply in_app_or in Hin.
    destruct Hin as [Hin|[Hin|Hin]].
    + rewrite Forall_forall in Ha. specialize (Ha c0 Hin).
      rewrite Hc0, less_irrefl in Ha. discriminate.
    + subst c0. exact Hc0.
    + destruct (ascending_node _ _ _ Hlist) as [_ [_ [_ Hcb]]].
      rewrite Forall_forall in Hcb. specialize (Hcb c0 Hin).
      rewrite Hc0 in Hcb. apply less_total; assumption.
  - pose proof (first_not_less_none _ _ Hfind) as Hall.
    rewrite Forall_forall in Hall. specialize (Hall c0 Hin).
    rewrite Hc0, less_irrefl in Hall. discriminate.
Qed.

(** [insert_by_val] on a well-formed set: either the value is held, and
    the set stays as it is, or it is not, and a new cell is linked in at
    its place in the order. *)
Lemma set_insert_cases (s : TreeSet.TreeSet T) (v : T) :
  well_formed (TreeSet.data_ s) (TreeSet.tree_ s) ->
  (exists c, In c (TreeSet.forward_cells s) /\ cval c = v
             /\ TreeSet.insert_by_val s v = (s, (It c, false)))
  \/ (~ In v (TreeSet.forward s)
      /\ exists s',
           TreeSet.insert_by_val s v
           = (s', (It (mkCell (fresh (TreeSet.data_ s)) v), true))
           /\ well_formed (TreeSet.data_ s') (TreeSet.tree_ s')
           /\ TreeSet.forward s' = sorted_insert less v (TreeSet.forward s)).
Proof.
  intros Hwf.
  assert (Hheld : In v (TreeSet.forward s) ->
                  exists c, first_not_less v (cells (TreeSet.data_ s)) = Some c
                            /\ In c (cells (TreeSet.data_ s)) /\ cval c = v)
    by (apply (held_value_found _ _ v Hwf)).
  unfold TreeSet.insert_by_val, TreeSet.place, TreeSet.handle_insert,
    TreeSet.it_next, TreeSet.end_, TreeSet.forward, TreeSet.forward_cells in *.
  rewrite (tree_find_first_not_less _ _ v Hwf).
  destruct (first_not_less v (cells (TreeSet.data_ s))) as [c|] eqn:Hfind.
  - destruct (first_not_less_some _ _ _ Hfind) as [a [b [Hsplit [Ha Hcv]]]].
    destruct (equal_to (cval c) v) eqn:Heq.
    + left. exists c. apply equal_to_spec in Heq. repeat split; auto.
      rewrite Hsplit. apply in_or_app. right. left. reflexivity.
    + right. rewrite Hcv.
      assert (Hne : cval c <> v).
      { intros Hcontra. apply equal_to_spec in Hcontra. congruence. }
      split.
      { intros Hin. destruct (Hheld Hin) as [c' [Hc' [_ Hv']]].
        inversion Hc'; subst c'. contradiction. }
      destruct (place_in_front _ _ v a b c Hwf Hsplit Ha Hcv Hne)
        as [Hins [Hwf' Hvals]].
      rewrite Hins. simpl. eexists. split; [reflexivity|].
      split; [exact Hwf'|exact Hvals].
  - right. split.
    { intros Hin. destruct (Hheld Hin) as [c' [Hc' _]]. discriminate. }
    destruct (place_at_end _ _ v Hwf Hfind) as [Hins [Hwf' Hvals]].
    rewrite Hins. simpl. eexists. split; [reflexivity|].
    split; [exact Hwf'|exact Hvals].
Qed.

Lemma set_insert_step (s : TreeSet.TreeSet T) (v : T) :
  well_formed (TreeSet.data_ s) (TreeSet.tree_ s) ->
  well_formed (TreeSet.data_ (fst (TreeSet.insert_by_val s v)))
              (TreeSet.tree_ (fst (TreeSet.insert_by_val s v)))
  /\ forall x, In x (TreeSet.forward (fst (TreeSet.insert_by_val s v)))
               <-> x = v \/ In x (TreeSet.forward s).
Proof.
  intros Hwf.
  destruct (set_insert_cases s v Hwf)
    as [[c [Hc [Hcv Hins]]] | [Hnot [s' [Hins [Hwf' Hvals]]]]];
    rewrite Hins; simpl.
  - split; [exact Hwf|]. intros x. split; [auto|].
    intros [Hx|Hx]; [|exact Hx]. subst x. rewrite <- Hcv.
    apply in_map. exact Hc.
  - split; [exact Hwf'|]. intros x. rewrite Hvals. apply in_sorted_insert.
Qed.

Lemma set_insert_all (vals : list T) :
  forall s : TreeSet.TreeSet T,
    well_formed (TreeSet.data_ s) (TreeSet.tree_ s) ->
    well_formed (TreeSet.data_ (TreeSet.insert_all s vals))
                (TreeSet.tree_ (TreeSet.insert_all s vals))
    /\ forall x, In x (TreeSet.forward (TreeSet.insert_all s vals))
                 <-> In x vals \/ In x (TreeSet.forward s).
Proof.
  unfold TreeSet.insert_all.
  induction vals as [|v vals IH]; intros s Hwf; cbn [fold_left].
  - split; [exact Hwf|]. intros x. simpl. intuition.
  - destruct (set_insert_step s v Hwf) as [Hwf' Hin'].
    destruct (IH _ Hwf') as [Hwf'' Hin'']. split; [exact Hwf''|].
    intros x. rewrite Hin'', Hin'. simpl. intuition.
Qed.

(** A set built by insertions holds exactly the inserted values. *)
Lemma set_of_values (vals : list T) :
  well_formed (TreeSet.data_ (TreeSet.insert_all TreeSet.construct vals))
              (TreeSet.tree_ (TreeSet.insert_all TreeSet.construct vals))
  /\ forall x, In x (TreeSet.forward (TreeSet.insert_all TreeSet.construct vals))
               <-> In x vals.
Proof.
  destruct (set_insert_all vals TreeSet.construct well_formed_empty)
    as [Hwf Hin].
  split; [exact Hwf|]. intros x. rewrite Hin. simpl. intuition.
Qed.

(** In a well-formed set [has] finds every value the set holds. *)
Lemma has_held_value (s : TreeSet.TreeSet T) (v : T) :
  well_formed (TreeSet.data_ s) (TreeSet.tree_ s) ->
  In v (TreeSet.forward s) ->
  TreeSet.has s v = true.
Proof.
  intros Hwf Hin.
  destruct (held_value_found _ _ v Hwf Hin) as [c [Hfind [_ Hcv]]].
  unfold TreeSet.has, TreeSet.find, TreeSet.end_.
  rewrite (tree_find_first_not_less _ _ v Hwf), Hfind.
  apply equal_to_spec in Hcv. rewrite Hcv. reflexivity.
Qed.

Lemma hint_insert_of_held_value (vals : list T) (hint : SetIterator T) (v : T) :
  In v vals ->
  TreeSet.insert_hint (TreeSet.insert_all TreeSet.construct vals) hint v
  = Some (TreeSet.insert_all TreeSet.construct vals,
          TreeSet.end_ (TreeSet.insert_all TreeSet.construct vals)).
Proof.
  intros Hin. destruct (set_of_values vals) as [Hwf Hheld].
  unfold TreeSet.insert_hint, TreeSet.insert_by_hint.
  rewrite (has_held_value _ v Hwf); [reflexivity|].
  apply Hheld. exact Hin.
Qed.



(** ** TreeMultiSet: counting *)







Lemma multiset_well_formed (vals : list T) :
  forall s : TreeMultiSet.TreeMultiSet T,
    well_formed (TreeMultiSet.data_ s) (TreeMultiSet.tree_ s) ->
    well_formed (TreeMultiSet.data_ (TreeMultiSet.insert_all s vals))
                (TreeMultiSet.tree_ (TreeMultiSet.insert_all s vals)).
Proof.
  unfold TreeMultiSet.insert_all.
  induction vals as [|v vals IH]; intros s Hwf; cbn [fold_left]; [exact Hwf|].
  apply IH, (multiset_insert_step s v Hwf).
Qed.


(** ** TreeSet: strictly increasing, and the tree mirrors the list *)

Lemma well_formed_cleared (n : nat) :
  well_formed (@mkList T [] n) (mkTree Leaf less).
Proof.
  unfold well_formed. simpl. repeat split; constructor.
Qed.

Lemma strictly_ascending_insert (v : T) (l : list T) :
  strictly_ascending l -> ~ In v l ->
  strictly_ascending (sorted_insert less v l).
Proof.
  induction l as [|y l IH]; intros Hasc Hnew; simpl.
  - split; [constructor|exact I].
  - destruct Hasc as [Hy Hl]. destruct (less v y) eqn:Hvy; simpl.
    + split; [|split; assumption]. constructor; [exact Hvy|].
      rewrite Forall_forall in *. intros z Hz.
      exact (less_trans v y z Hvy (Hy z Hz)).
    + split.
      * rewrite Forall_forall in *. intros z Hz.
        apply in_sorted_insert in Hz. destruct Hz as [Hz|Hz]; [|auto].
        subst z. destruct (less y v) eqn:Hyv; [reflexivity|].
        exfalso. apply Hnew. left. apply less_total; assumption.
      * apply IH; [exact Hl|]. intros Hin. apply Hnew. right. exact Hin.
Qed.

Lemma enter_between (n : cell T) (a b : list (cell T)) :
  Forall (fun x => less (cval n) (cval x) = false) a ->
  Forall (fun y => less (cval n) (cval y) = true) b ->
  enter n (a ++ b) = a ++ n :: b.
Proof.
  intros Ha Hb. induction Ha as [|x a Hx _ IH]; simpl.
  - destruct Hb as [|y b Hy _]; simpl; [reflexivity|]. rewrite Hy. reflexivity.
  - rewrite Hx, IH. reflexivity.
Qed.

Lemma tree_insert_inorder (d : List T) (t : AtomicTree T) (n : cell T) :
  well_formed d t ->
  inorder (root_ (tree_insert t (It n))) = enter n (inorder (root_ t)).
Proof.
  intros [Hcmp [Htree _]]. simpl. rewrite Hcmp, inorder_make_black.
  apply inorder_link, Htree.
Qed.

Lemma set_insert_shape (s : TreeSet.TreeSet T) (v : T) :
  set_shape (TreeSet.data_ s) (TreeSet.tree_ s) ->
  set_shape (TreeSet.data_ (fst (TreeSet.insert_by_val s v)))
            (TreeSet.tree_ (fst (TreeSet.insert_by_val s v))).
Proof.
  intros [Hwf [Hstrict Hmirror]].
  assert (Hheld : In v (TreeSet.forward s) ->
                  exists c, first_not_less v (cells (TreeSet.data_ s)) = Some c
                            /\ In c (cells (TreeSet.data_ s)) /\ cval c = v)
    by (apply (held_value_found _ _ v Hwf)).
  unfold TreeSet.insert_by_val, TreeSet.place, TreeSet.handle_insert,
    TreeSet.it_next, TreeSet.end_, TreeSet.forward in *.
  rewrite (tree_find_first_not_less _ _ v Hwf).
  destruct (first_not_less v (cells (TreeSet.data_ s))) as [c|] eqn:Hfind.
  - destruct (first_not_less_some _ _ _ Hfind) as [a [b [Hsplit [Ha Hcv]]]].
    destruct (equal_to (cval c) v) eqn:Heq.
    + cbn [fst]. split; [exact Hwf|split; assumption].
    + rewrite Hcv.
      assert (Hne : cval c <> v).
      { intros Hcontra. apply equal_to_spec in Hcontra. congruence. }
      assert (Hnew : ~ In v (map cval (cells (TreeSet.data_ s)))).
      { intros Hin. destruct (Hheld Hin) as [c' [Hc' [_ Hv']]].
        inversion Hc'; subst c'. contradiction. }
      destruct (place_in_front _ _ v a b c Hwf Hsplit Ha Hcv Hne)
        as [Hins [Hwf' Hvals]].
      rewrite Hins. unfold set_shape.
      cbn [fst TreeSet.data_ TreeSet.tree_ cells].
      split; [exact Hwf'|]. split.
      * rewrite Hvals. apply strictly_ascending_insert; assumption.
      * rewrite (tree_insert_inorder _ _ _ Hwf), Hmirror, Hsplit.
        pose proof Hwf as [_ [_ [Hlist _]]]. rewrite Hsplit in Hlist.
        destruct (ascending_node _ _ _ Hlist) as [_ [_ [_ Hcb]]].
        assert (Hvc : less v (cval c) = true).
        { destruct (less v (cval c)) eqn:Hvc; [reflexivity|].
          exfalso. apply Hne. symmetry. apply less_total; assumption. }
        apply (enter_between (mkCell (fresh (TreeSet.data_ s)) v)).
        -- apply all_less_not_greater, Ha.
        -- constructor; [exact Hvc|].
           rewrite Forall_forall in *. intros y Hy.
           exact (less_then_not_greater v (cval c) (cval y) Hvc (Hcb y Hy)).
  - assert (Hnew : ~ In v (map cval (cells (TreeSet.data_ s)))).
    { intros Hin. destruct (Hheld Hin) as [c' [Hc' _]]. discriminate. }
    destruct (place_at_end _ _ v Hwf Hfind) as [Hins [Hwf' Hvals]].
    rewrite Hins. unfold set_shape.
      cbn [fst TreeSet.data_ TreeSet.tree_ cells].
    split; [exact Hwf'|]. split.
    + rewrite Hvals. apply strictly_ascending_insert; assumption.
    + rewrite (tree_insert_inorder _ _ _ Hwf), Hmirror.
      rewrite <- (app_nil_r (cells (TreeSet.data_ s))) at 1.
      apply (enter_between (mkCell (fresh (TreeSet.data_ s)) v)).
      * apply all_less_not_greater, first_not_less_none, Hfind.
      * constructor.
Qed.

Lemma set_shape_insert_all (vals : list T) :
  forall s : TreeSet.TreeSet T,
    set_shape (TreeSet.data_ s) (TreeSet.tree_ s) ->
    set_shape (TreeSet.data_ (TreeSet.insert_all s vals))
              (TreeSet.tree_ (TreeSet.insert_all s vals)).
Proof.
  unfold TreeSet.insert_all.
  induction vals as [|v vals IH]; intros s Hshape; cbn [fold_left].
  - exact Hshape.
  - apply IH, set_insert_shape, Hshape.
Qed.

Lemma set_shape_built (vals : list T) :
  set_shape (TreeSet.data_ (TreeSet.insert_all TreeSet.construct vals))
            (TreeSet.tree_ (TreeSet.insert_all TreeSet.construct vals)).
Proof.
  apply set_shape_insert_all. split; [exact well_formed_empty|].
  split; [exact I|reflexivity].
Qed.

(** Two strictly increasing sequences with the same members are equal. *)
Lemma strictly_ascending_unique (l1 : list T) :
  forall l2 : list T,
    strictly_ascending l1 -> strictly_ascending l2 ->
    (forall x, In x l1 <-> In x l2) ->
    l1 = l2.
Proof.
  induction l1 as [|x1 l1 IH]; intros [|x2 l2] H1 H2 Hsame.
  - reflexivity.
  - exfalso. apply (proj2 (Hsame x2)). left. reflexivity.
  - exfalso. apply (proj1 (Hsame x1)). left. reflexivity.
  - destruct H1 as [Hx1 H1]. destruct H2 as [Hx2 H2].
    rewrite Forall_forall in Hx1, Hx2.
    assert (Hhead : x1 = x2).
    { destruct (proj1 (Hsame x1) (or_introl eq_refl)) as [Heq|Hin1];
        [congruence|].
      destruct (proj2 (Hsame x2) (or_introl eq_refl)) as [Heq|Hin2];
        [congruence|].
      pose proof (Hx2 x1 Hin1) as Hlt. pose proof (Hx1 x2 Hin2) as Hgt.
      rewrite (less_asym _ _ Hlt) in Hgt. discriminate. }
    subst x2. f_equal. apply IH; [assumption|assumption|].
    intros x. split; intros Hin.
    + destruct (proj1 (Hsame x) (or_intror Hin)) as [Heq|Hin']; [|exact Hin'].
      subst x. pose proof (Hx1 x1 Hin) as Hlt.
      rewrite less_irrefl in Hlt. discriminate.
    + destruct (proj2 (Hsame x) (or_intror Hin)) as [Heq|Hin']; [|exact Hin'].
      subst x. pose proof (Hx2 x1 Hin) as Hlt.
      rewrite less_irrefl in Hlt. discriminate.
Qed.

(** ** Lookups *)

Lemma in_sort_stable (vals : list T) :
  forall (acc : list T) (x : T),
    In x (fold_left (fun l v => sorted_insert less v l) vals acc)
    <-> In x vals \/ In x acc.
Proof.
  induction vals as [|v vals IH]; intros acc x; cbn [fold_left].
  - simpl. tauto.
  - rewrite IH, in_sorted_insert. simpl. split; intros Hx.
    + destruct Hx as [Hx|[Hx|Hx]]; auto.
    + destruct Hx as [[Hx|Hx]|Hx]; auto.
Qed.

Lemma multiset_of_values (vals : list T) :
  well_formed
    (TreeMultiSet.data_ (TreeMultiSet.insert_all TreeMultiSet.construct vals))
    (TreeMultiSet.tree_ (TreeMultiSet.insert_all TreeMultiSet.construct vals))
  /\ forall x,
       In x (TreeMultiSet.forward
               (TreeMultiSet.insert_all TreeMultiSet.construct vals))
       <-> In x vals.
Proof.
  split.
  - apply multiset_well_formed. exact well_formed_empty.
  - intros x. rewrite multiset_round_trip. unfold sort_stable.
    rewrite in_sort_stable. simpl. tauto.
Qed.

Lemma lookup_held (d : List T) (t : AtomicTree T) (v : T) :
  well_formed d t ->
  In v (map cval (cells d)) ->
  exists a c b,
    cells d = a ++ c :: b
    /\ tree_find t v = Some c
    /\ cval c = v
    /\ Forall (fun x => less (cval x) v = true) a.
Proof.
  intros Hwf Hin.
  destruct (held_value_found _ _ v Hwf Hin) as [c [Hfind [_ Hv]]].
  destruct (first_not_less_some _ _ _ Hfind) as [a [b [Hsplit [Ha _]]]].
  exists a, c, b. rewrite (tree_find_first_not_less _ _ v Hwf).
  repeat split; assumption.
Qed.

Lemma lookup_missing (d : List T) (t : AtomicTree T) (v : T) (c : cell T) :
  well_formed d t ->
  ~ In v (map cval (cells d)) ->
  tree_find t v = Some c ->
  cval c <> v.
Proof.
  intros Hwf Hnew Hfind Hv. apply Hnew.
  rewrite (tree_find_first_not_less _ _ v Hwf) in Hfind.
  destruct (first_not_less_some _ _ _ Hfind) as [a [b [Hsplit _]]].
  rewrite Hsplit, map_app, <- Hv. apply in_or_app. right. left. reflexivity.
Qed.

Lemma set_find_in_well_formed (s : TreeSet.TreeSet T) (v : T) :
  well_formed (TreeSet.data_ s) (TreeSet.tree_ s) ->
  (In v (TreeSet.forward s) ->
   exists c, TreeSet.find s v = It c
             /\ In c (TreeSet.forward_cells s) /\ cval c = v)
  /\ (~ In v (TreeSet.forward s) -> TreeSet.find s v = End).
Proof.
  intros Hwf. unfold TreeSet.find, TreeSet.forward, TreeSet.forward_cells,
    TreeSet.end_. split.
  - intros Hin.
    destruct (lookup_held _ _ v Hwf Hin) as [a [c [b [Hsplit [Hfind [Hv _]]]]]].
    exists c. rewrite Hfind.
    rewrite (proj2 (equal_to_spec (cval c) v) Hv). cbn [negb].
    repeat split; [|exact Hv]. rewrite Hsplit. apply in_or_app.
    right. left. reflexivity.
  - intros Hnew. destruct (tree_find (TreeSet.tree_ s) v) as [c|] eqn:Hfind;
      [|reflexivity].
    destruct (equal_to (cval c) v) eqn:Heq; [|reflexivity].
    exfalso. apply (lookup_missing _ _ v c Hwf Hnew Hfind).
    apply equal_to_spec, Heq.
Qed.

Lemma set_has_in_well_formed (s : TreeSet.TreeSet T) (v : T) :
  well_formed (TreeSet.data_ s) (TreeSet.tree_ s) ->
  TreeSet.has s v = true <-> In v (TreeSet.forward s).
Proof.
  intros Hwf. split.
  - unfold TreeSet.has, TreeSet.find, TreeSet.end_, TreeSet.forward.
    rewrite (tree_find_first_not_less _ _ v Hwf).
    destruct (first_not_less v (cells (TreeSet.data_ s))) as [c|] eqn:Hfind;
      [|discriminate].
    destruct (equal_to (cval c) v) eqn:Heq; [|discriminate].
    intros _. apply equal_to_spec in Heq.
    destruct (first_not_less_some _ _ _ Hfind) as [a [b [Hsplit _]]].
    rewrite Hsplit, map_app, <- Heq. apply in_or_app. right. left.
    reflexivity.
  - apply has_held_value, Hwf.
Qed.

Lemma multiset_find_in_well_formed (s : TreeMultiSet.TreeMultiSet T) (v : T) :
  well_formed (TreeMultiSet.data_ s) (TreeMultiSet.tree_ s) ->
  (In v (TreeMultiSet.forward s) ->
   exists a c b,
     TreeMultiSet.forward_cells s = a ++ c :: b
     /\ TreeMultiSet.find s v = It c
     /\ cval c = v
     /\ Forall (fun x => less (cval x) v = true) a)
  /\ (~ In v (TreeMultiSet.forward s) -> TreeMultiSet.find s v = End).
Proof.
  intros Hwf. unfold TreeMultiSet.find, TreeMultiSet.forward,
    TreeMultiSet.forward_cells, TreeMultiSet.end_. split.
  - intros Hin.
    destruct (lookup_held _ _ v Hwf Hin) as [a [c [b [Hsplit [Hfind [Hv Ha]]]]]].
    exists a, c, b. rewrite Hfind.
    rewrite (proj2 (equal_to_spec v (cval c)) (eq_sym Hv)). cbn [negb].
    repeat split; assumption.
  - intros Hnew.
    destruct (tree_find (TreeMultiSet.tree_ s) v) as [c|] eqn:Hfind;
      [|reflexivity].
    destruct (equal_to v (cval c)) eqn:Heq; [|reflexivity].
    exfalso. apply (lookup_missing _ _ v c Hwf Hnew Hfind).
    symmetry. apply equal_to_spec, Heq.
Qed.


(** ** The first greater cell *)














(** ** Clearing *)

Lemma set_after_clear (s : TreeSet.TreeSet T) (vals : list T) :
  TreeSet.key_comp s = less ->
  TreeSet.forward (TreeSet.insert_all (TreeSet.clear s) vals)
  = TreeSet.forward (TreeSet.insert_all TreeSet.construct vals).
Proof.
  intros Hcmp. unfold TreeSet.key_comp, key_comp in Hcmp.
  assert (Hwf : well_formed (TreeSet.data_ (TreeSet.clear s))
                            (TreeSet.tree_ (TreeSet.clear s))).
  { unfold TreeSet.clear, tree_clear. cbn [TreeSet.data_ TreeSet.tree_].
    rewrite Hcmp. apply well_formed_cleared. }
  assert (Hshape : set_shape (TreeSet.data_ (TreeSet.clear s))
                             (TreeSet.tree_ (TreeSet.clear s))).
  { split; [exact Hwf|]. split; [exact I|reflexivity]. }
  apply strictly_ascending_unique.
  - apply (set_shape_insert_all vals _ Hshape).
  - apply (set_shape_built vals).
  - intros x. rewrite (proj2 (set_insert_all vals _ Hwf) x).
    rewrite (proj2 (set_of_values vals) x). simpl. tauto.
Qed.

Lemma multiset_after_clear (s : TreeMultiSet.TreeMultiSet T) (vals : list T) :
  TreeMultiSet.key_comp s = less ->
  TreeMultiSet.forward (TreeMultiSet.insert_all (TreeMultiSet.clear s) vals)
  = sort_stable less vals.
Proof.
  intros Hcmp. unfold TreeMultiSet.key_comp, key_comp in Hcmp.
  rewrite multiset_insert_all; [reflexivity|].
  unfold TreeMultiSet.clear, tree_clear.
  cbn [TreeMultiSet.data_ TreeMultiSet.tree_].
  rewrite Hcmp. apply well_formed_cleared.
Qed.

End TotalOrder.

(* ===================================================================== *)
(** * Tree sets under the default comparator *)
(* ===================================================================== *)





(** C6 (amended).  A set built with the default comparator, over elements
    that [std.less] orders totally and [std.equal_to] compares by equality,
    holds every value that was inserted; a hinted insert of such a value,
    whatever the hint, leaves the set as it is and returns [end()]. *)
Theorem hint_insert_of_held_value_returns_end :
  forall (T : Type) (C : IComparable T),
    totally_ordered T ->
    forall (S : list T) (hint : Base.SetIterator T) (v : T),
      In v S ->
      TreeSet.insert_hint (TreeSet.insert_all TreeSet.construct S) hint v
      = Some (TreeSet.insert_all TreeSet.construct S,
              TreeSet.end_ (TreeSet.insert_all TreeSet.construct S)).
Proof.
  intros T C [Hirrefl [Htrans [Htotal Heq]]] S hint v Hin.
  apply hint_insert_of_held_value; assumption.
Qed.

Lemma hint_insert_of_held_value_returns_end_witness :
  totally_ordered Z
  /\ In 2 [1; 2; 3]
  /\ TreeSet.insert_hint (Samples.set_of [1; 2; 3])
       (TreeSet.begin (Samples.set_of [1; 2; 3])) 2
     = Some (Samples.set_of [1; 2; 3], Base.End).
Proof.
  assert (Hord : totally_ordered Z).
  { unfold totally_ordered. simpl. repeat split.
    - apply Z.ltb_irrefl.
    - intros a b c. rewrite !Z.ltb_lt. lia.
    - intros a b. rewrite !Z.ltb_ge. lia.
    - apply Z.eqb_eq.
    - apply Z.eqb_eq. }
  assert (Hin : In 2 [1; 2; 3]) by (simpl; auto).
  split; [exact Hord|]. split; [exact Hin|].
  exact (hint_insert_of_held_value_returns_end Z number_comparable Hord
           [1; 2; 3] (TreeSet.begin (Samples.set_of [1; 2; 3])) 2 Hin).
Defined.

(* ===================================================================== *)
(** * Vector: writing, growing and shrinking *)
(* ===================================================================== *)

Section VectorUpdate.
Context {T : Type}.
Variable undefined : T.

Local Abbreviation Vec := (@Vector.Vector T).

Lemma nth_replace_nth_other (m n : nat) (x d : T) (l : list T) :
  m <> n -> nth m (Vector.replace_nth n x l) d = nth m l d.
Proof.
  revert m n. induction l as [|y l IH]; intros [|m] [|n] Hmn; simpl; auto.
  - contradiction.
Qed.

Lemma size_put (v : Vec) (i : Z) (x : T) :
  i <= Vector.size v ->
  Vector.size (Vector.put undefined v i x)
  = if i =? Vector.size v then Vector.size v + 1 else Vector.size v.
Proof.
  intros Hi. pose proof (length_nonneg v) as Hl.
  unfold Vector.put, Vector.size in *.
  destruct (Z.ltb_spec i 0).
  - destruct (Z.eqb_spec i (Vector.length v)); [lia|reflexivity].
  - destruct (Z.ltb_spec i (Vector.length v)).
    + destruct (Z.eqb_spec i (Vector.length v)); [lia|].
      unfold Vector.length. simpl. rewrite length_replace_nth. reflexivity.
    + destruct (Z.eqb_spec i (Vector.length v)); [|lia].
      unfold Vector.length. simpl. rewrite !length_app, repeat_length. simpl.
      unfold Vector.length in *. lia.
Qed.

Lemma get_put_same (v : Vec) (i : Z) (x : T) :
  i <= Vector.size v ->
  Vector.get undefined (Vector.put undefined v i x) i = x.
Proof.
  intros Hi. pose proof (length_nonneg v) as Hl.
  unfold Vector.put, Vector.get, Vector.size in *.
  destruct (Z.ltb_spec i 0).
  - simpl. rewrite Z.eqb_refl. reflexivity.
  - destruct (Z.ltb_spec i (Vector.length v)); simpl.
    + apply nth_replace_nth_same. unfold Vector.length in *. lia.
    + assert (i = Vector.length v) by lia. subst i.
      rewrite Z.sub_diag. simpl. unfold Vector.length.
      rewrite Nat2Z.id, app_nth2 by lia. rewrite Nat.sub_diag. reflexivity.
Qed.

Lemma get_put_other (v : Vec) (i j : Z) (x : T) :
  i <= Vector.size v -> j <> i ->
  Vector.get undefined (Vector.put undefined v i x) j = Vector.get undefined v j.
Proof.
  intros Hi Hji. pose proof (length_nonneg v) as Hl.
  unfold Vector.put, Vector.get, Vector.size in *.
  destruct (Z.ltb_spec i 0).
  - simpl. destruct (Z.ltb_spec j 0); [|reflexivity].
    destruct (Z.eqb_spec i j); [congruence|reflexivity].
  - destruct (Z.ltb_spec j 0); [destruct (i <? Vector.length v); reflexivity|].
    destruct (Z.ltb_spec i (Vector.length v)); simpl.
    + apply nth_replace_nth_other. lia.
    + assert (i = Vector.length v) by lia. subst i.
      rewrite Z.sub_diag. simpl.
      destruct (Z.ltb_spec j (Vector.length v)).
      * apply app_nth1. unfold Vector.length in *. lia.
      * rewrite !nth_overflow; [reflexivity| |];
          rewrite ?length_app; simpl; unfold Vector.length in *; lia.
Qed.

(** X1.  [set(i, x)] at an index below [size()], the index of an element
    or a negative one, returns the previous content of [this[i]];
    afterwards [at(i)] returns [x], the size is as before, and [at] reads
    every other index below the size as before.  This is so on an exotic
    Array object and on an ordinary array-like object alike. *)
Theorem set_then_at :
  (forall (v : Vec) (i : Z) (x : T),
      i < Vector.size v ->
      exists v' : Vec,
        Vector.set undefined v i x = Ok (v', Vector.get undefined v i)
        /\ Vector.at_ undefined v' i = Ok x
        /\ Vector.size v' = Vector.size v
        /\ forall j : Z, j <> i -> j < Vector.size v ->
             Vector.at_ undefined v' j = Vector.at_ undefined v j)
  /\ (forall (o : @ArrayLike.Vector T) (i : Z) (x : T),
        i < ArrayLike.size o ->
        exists o' : ArrayLike.Vector,
          ArrayLike.set undefined o i x = Ok (o', ArrayLike.get undefined o i)
          /\ ArrayLike.at_ undefined o' i = Ok x
          /\ ArrayLike.size o' = ArrayLike.size o
          /\ forall j : Z, j <> i -> j < ArrayLike.size o ->
               ArrayLike.at_ undefined o' j = ArrayLike.at_ undefined o j).
Proof.
  split.
  - intros v i x Hi. exists (Vector.put undefined v i x).
    assert (Hle : i <= Vector.size v) by lia.
    pose proof (size_put v i x Hle) as Hsize.
    destruct (Z.eqb_spec i (Vector.size v)) as [Heq|_]; [lia|].
    split; [|split; [|split; [exact Hsize|]]].
    + unfold Vector.set. unfold Vector.size in Hi.
      destruct (Z.gtb_spec i (Vector.length v)); [lia|reflexivity].
    + unfold Vector.at_. rewrite get_put_same by exact Hle. rewrite Hsize.
      destruct (Z.ltb_spec i (Vector.size v)); [reflexivity|lia].
    + intros j Hji Hj. unfold Vector.at_.
      rewrite (get_put_other v i j x Hle Hji). rewrite Hsize. reflexivity.
  - intros o i x Hi. exists (ArrayLike.put o i x).
    split; [|split; [|split; [reflexivity|]]].
    + unfold ArrayLike.set. unfold ArrayLike.size in Hi.
      destruct (Z.gtb_spec i (ArrayLike.length o)); [lia|reflexivity].
    + unfold ArrayLike.at_, ArrayLike.get, ArrayLike.put, ArrayLike.size.
      cbn [ArrayLike.length ArrayLike.own Vector.prop_get].
      rewrite Z.eqb_refl. unfold ArrayLike.size in Hi.
      destruct (Z.ltb_spec i (ArrayLike.length o)); [reflexivity|lia].
    + intros j Hji Hj.
      unfold ArrayLike.at_, ArrayLike.get, ArrayLike.put, ArrayLike.size.
      cbn [ArrayLike.length ArrayLike.own Vector.prop_get].
      destruct (Z.eqb_spec i j); [congruence|reflexivity].
Qed.

Lemma size_length (v : Vec) :
  Vector.size v = Z.of_nat (List.length (Vector.items v)).
Proof. reflexivity. Qed.

(** X2.  [push_back(x)] appends: the size grows by one, [back()] returns
    [x], every slot below the old size reads as before, and forward
    iteration yields the old elements followed by [x]. *)
Theorem push_back_appends :
  forall (v : Vec) (x : T),
    Vector.size (Vector.push_back v x) = Vector.size v + 1
    /\ Vector.back undefined (Vector.push_back v x) = Ok x
    /\ (forall j : Z, j < Vector.size v ->
          Vector.at_ undefined (Vector.push_back v x) j = Vector.at_ undefined v j)
    /\ forall extra : nat,
         Vector.forward undefined (S (List.length (Vector.items v)) + extra)
           (Vector.push_back v x)
         = Some (Ok (Vector.items v ++ [x])).
Proof.
  intros v x. pose proof (length_nonneg v) as Hl.
  assert (Hsize : Vector.size (Vector.push_back v x) = Vector.size v + 1).
  { unfold Vector.size, Vector.length. simpl. rewrite length_app. simpl. lia. }
  split; [exact Hsize|]. split; [|split].
  - unfold Vector.back. fold (Vector.size (Vector.push_back v x)).
    rewrite Hsize, at_in_range by (rewrite Hsize; unfold Vector.size; lia).
    simpl. replace (Z.to_nat (Vector.size v + 1 - 1))
      with (List.length (Vector.items v))
      by (unfold Vector.size, Vector.length; lia).
    rewrite app_nth2 by lia. rewrite Nat.sub_diag. reflexivity.
  - intros j Hj. unfold Vector.at_.
    destruct (Z.ltb_spec j (Vector.size (Vector.push_back v x))); [|lia].
    destruct (Z.ltb_spec j (Vector.size v)); [|lia].
    unfold Vector.get. simpl. destruct (Z.ltb_spec j 0); [reflexivity|].
    rewrite app_nth1; [reflexivity|]. unfold Vector.size, Vector.length in *. lia.
  - intros extra. apply forward_items. simpl. rewrite length_app. simpl. lia.
Qed.

Lemma prev_of_end (v : Vec) :
  Vector.prev v (Vector.end_ v) = Vector.Iter (Vector.size v - 1).
Proof. reflexivity. Qed.

Lemma pop_back_items (v : Vec) :
  Vector.pop_back v
  = Vector.mkVector (removelast (Vector.items v)) (Vector.props v).
Proof.
  pose proof (length_nonneg v) as Hl.
  unfold Vector.pop_back, Vector.erase_at, Vector.erase, Vector.erase_by_range.
  rewrite prev_of_end. unfold Vector.next. simpl.
  destruct (Z.geb_spec (Vector.size v - 1) (Vector.size v - 1)); [|lia].
  simpl. destruct (Z.eqb_spec (Vector.size v - 1) (-1)) as [Hempty|Hfull].
  - assert (Hits : Vector.items v = []).
    { unfold Vector.size, Vector.length in Hempty.
      destruct (Vector.items v); [reflexivity|].
      cbn [List.length] in Hempty. lia. }
    destruct v as [its ps]. simpl in *. subst its. reflexivity.
  - simpl. unfold Vector.splice, Vector.splice_start. simpl.
    destruct (Z.ltb_spec (Vector.size v - 1) 0);
      [unfold Vector.size in *; lia|].
    rewrite removelast_firstn_len. f_equal. f_equal.
    unfold Vector.size, Vector.length in *. lia.
Qed.

(** X3.  [pop_back()] removes the last element and nothing else; on an
    empty vector it does nothing (it does not throw); it undoes a
    [push_back]. *)
Theorem pop_back_removes_last :
  forall (v : Vec) (x : T),
    Vector.items (Vector.pop_back v) = removelast (Vector.items v)
    /\ Vector.props (Vector.pop_back v) = Vector.props v
    /\ Vector.pop_back (@Vector.empty_vector T) = Vector.empty_vector
    /\ Vector.pop_back (Vector.push_back v x) = v.
Proof.
  intros v x. rewrite !pop_back_items. simpl.
  split; [reflexivity|]. split; [reflexivity|]. split; [reflexivity|].
  rewrite removelast_last. destruct v; reflexivity.
Qed.

(** X4.  On a vector that is not empty [front()] returns the first and
    [back()] the last element. *)
Theorem front_and_back_of_nonempty :
  forall (v : Vec),
    Vector.items v <> [] ->
    Vector.front undefined v = Ok (hd undefined (Vector.items v))
    /\ Vector.back undefined v = Ok (last (Vector.items v) undefined).
Proof.
  intros v Hne. pose proof (length_nonneg v) as Hl.
  assert (Hpos : 0 < Vector.size v).
  { unfold Vector.size, Vector.length. destruct (Vector.items v); [congruence|].
    simpl. lia. }
  unfold Vector.front, Vector.back. fold (Vector.size v).
  rewrite !at_in_range by lia. split.
  - destruct (Vector.items v); [congruence|reflexivity].
  - f_equal. destruct (exists_last Hne) as [l [y Hly]]. rewrite Hly.
    rewrite last_last. unfold Vector.size, Vector.length. rewrite Hly.
    rewrite length_app. simpl.
    replace (Z.to_nat (Z.of_nat (List.length l + 1) - 1)) with (List.length l)
      by lia.
    rewrite app_nth2 by lia. rewrite Nat.sub_diag. reflexivity.
Qed.

(** ** Erasure *)

Lemma splice_start_in_range (v : Vec) (i : Z) :
  0 <= i <= Vector.size v -> Vector.splice_start v i = Z.to_nat i.
Proof.
  intros Hi. unfold Vector.splice_start, Vector.size in *.
  destruct (Z.ltb_spec i 0); [lia|]. f_equal. lia.
Qed.

Lemma erase_range_items (v : Vec) (i j : Z) :
  0 <= i < Vector.size v -> 0 <= j < Vector.size v ->
  Vector.erase v (Vector.Iter i) (Vector.Iter j)
  = (Vector.mkVector
       (firstn (Z.to_nat i) (Vector.items v)
          ++ skipn (Z.to_nat (Z.max i j)) (Vector.items v))
       (Vector.props v),
     Vector.Iter i).
Proof.
  intros Hi Hj. unfold Vector.erase, Vector.erase_by_range. simpl.
  destruct (Z.eqb_spec i (-1)); [lia|]. destruct (Z.eqb_spec j (-1)); [lia|].
  unfold Vector.splice_count. rewrite splice_start_in_range by lia. simpl.
  f_equal. f_equal. f_equal. f_equal. unfold Vector.size in *. lia.
Qed.

Lemma erase_to_end_items (v : Vec) (i : Z) :
  0 <= i < Vector.size v ->
  Vector.erase v (Vector.Iter i) (Vector.end_ v)
  = (Vector.mkVector (firstn (Z.to_nat i) (Vector.items v)) (Vector.props v),
     Vector.end_ v).
Proof.
  intros Hi. unfold Vector.erase, Vector.erase_by_range. simpl.
  destruct (Z.eqb_spec i (-1)); [lia|].
  unfold Vector.splice. rewrite splice_start_in_range by lia. reflexivity.
Qed.

(** X5.  [erase(first, last)] between two element positions [i] and [j]
    removes the elements of [i, j) and returns [first]; when [j < i] it
    removes nothing and still returns normally.  With [last = end()] it
    removes everything from [i] on and returns [end()]. *)
Theorem erase_range_removes :
  forall (v : Vec) (i j : Z),
    0 <= i < Vector.size v -> 0 <= j < Vector.size v ->
    Vector.erase v (Vector.Iter i) (Vector.Iter j)
    = (Vector.mkVector
         (firstn (Z.to_nat i) (Vector.items v)
            ++ skipn (Z.to_nat (Z.max i j)) (Vector.items v))
         (Vector.props v),
       Vector.Iter i)
    /\ (j < i -> fst (Vector.erase v (Vector.Iter i) (Vector.Iter j)) = v)
    /\ Vector.erase v (Vector.Iter i) (Vector.end_ v)
       = (Vector.mkVector (firstn (Z.to_nat i) (Vector.items v)) (Vector.props v),
          Vector.end_ v).
Proof.
  intros v i j Hi Hj. split; [apply erase_range_items; assumption|].
  split; [|apply erase_to_end_items; assumption].
  intros Hji. rewrite erase_range_items by assumption. simpl.
  rewrite Z.max_l by lia. rewrite firstn_skipn. destruct v; reflexivity.
Qed.

(** X6.  [erase(position)] at an element position [i] removes exactly that
    element.  The iterator it returns is [end()] when the last element was
    removed, and otherwise stays at index [i], where it now reads the
    element that followed the removed one. *)
Theorem erase_at_removes_one :
  forall (v : Vec) (i : Z),
    0 <= i < Vector.size v ->
    Vector.items (fst (Vector.erase_at v (Vector.Iter i)))
    = firstn (Z.to_nat i) (Vector.items v)
        ++ skipn (S (Z.to_nat i)) (Vector.items v)
    /\ Vector.props (fst (Vector.erase_at v (Vector.Iter i))) = Vector.props v
    /\ (i = Vector.size v - 1 ->
        snd (Vector.erase_at v (Vector.Iter i)) = Vector.end_ v)
    /\ (i < Vector.size v - 1 ->
        snd (Vector.erase_at v (Vector.Iter i)) = Vector.Iter i
        /\ Vector.value undefined (fst (Vector.erase_at v (Vector.Iter i)))
             (Vector.Iter i)
           = Vector.at_ undefined v (i + 1)).
Proof.
  intros v i Hi. unfold Vector.erase_at, Vector.next. cbn [Vector.index].
  destruct (Z.geb_spec i (Vector.size v - 1)) as [Hlast|Hmid].
  - rewrite erase_to_end_items by assumption.
    cbn [fst snd Vector.items Vector.props].
    rewrite skipn_all2 by (unfold Vector.size, Vector.length in *; lia).
    rewrite app_nil_r. repeat split; auto; intros; lia.
  - rewrite erase_range_items by lia.
    cbn [fst snd Vector.items Vector.props].
    replace (Z.to_nat (Z.max i (i + 1))) with (S (Z.to_nat i)) by lia.
    repeat split; auto; try lia.
    unfold Vector.value. cbn [Vector.index].
    assert (Hlen : (S (Z.to_nat i) < List.length (Vector.items v))%nat)
      by (unfold Vector.size, Vector.length in *; lia).
    rewrite !at_in_range.
    + cbn [Vector.items]. f_equal.
      rewrite app_nth2 by (rewrite length_firstn; lia).
      rewrite length_firstn, Nat.min_l by lia.
      rewrite Nat.sub_diag.
      replace (Z.to_nat (i + 1)) with (S (Z.to_nat i)) by lia.
      rewrite <- (firstn_skipn (S (Z.to_nat i)) (Vector.items v)) at 2.
      rewrite app_nth2 by (rewrite length_firstn; lia).
      rewrite length_firstn, Nat.min_l by lia. rewrite Nat.sub_diag.
      reflexivity.
    + lia.
    + unfold Vector.size, Vector.length in *. cbn [Vector.items].
      rewrite length_app, length_firstn, length_skipn. lia.
Qed.

(** ** Insertion *)

Lemma push_repeat_items (n : nat) (x : T) :
  forall v : Vec,
    Vector.push_repeat n v x
    = Vector.mkVector (Vector.items v ++ repeat x n) (Vector.props v).
Proof.
  induction n as [|n IH]; intros v; simpl.
  - rewrite app_nil_r. destruct v; reflexivity.
  - rewrite IH. simpl. rewrite <- app_assoc. reflexivity.
Qed.

(** X7.  [insert(position, n, val)] puts [n] copies of [val] in front of
    the element at [position], at the end for [position = end()]; a
    negative [n] inserts nothing.  At an element position it returns
    [position], which then reads the first copy; at [end()] it returns
    [begin()] of the grown vector.  [insert(position, val)] is the case
    [n = 1]. *)
Theorem insert_repeat_splices :
  forall (v : Vec) (i n : Z) (x : T),
    -1 <= i < Vector.size v ->
    let k := Vector.insertion_point v (Vector.Iter i) in
    let grown :=
      Vector.mkVector
        (firstn k (Vector.items v) ++ repeat x (Z.to_nat n)
           ++ skipn k (Vector.items v))
        (Vector.props v) in
    Vector.insert_repeat v (Vector.Iter i) n x
    = (grown, if i =? -1 then Vector.begin grown else Vector.Iter i)
    /\ Vector.insert_val v (Vector.Iter i) x
       = Vector.insert_repeat v (Vector.Iter i) 1 x
    /\ (0 <= i -> 0 < n -> Vector.at_ undefined grown i = Ok x).
Proof.
  intros v i n x Hi k grown. subst k grown. unfold Vector.insertion_point.
  cbn [Vector.index].
  split; [|split; [reflexivity|]].
  - unfold Vector.insert_repeat, Vector.insert_by_repeating_val.
    cbn [Vector.index].
    destruct (Z.eqb_spec i (-1)) as [Hend|Hmid].
    + rewrite push_repeat_items, firstn_all, skipn_all, app_nil_r.
      reflexivity.
    + unfold Vector.splice. rewrite splice_start_in_range by lia.
      rewrite push_repeat_items. unfold Vector.push_all.
      cbn [Vector.items Vector.props]. rewrite <- app_assoc. reflexivity.
  - intros Hi0 Hn. destruct (Z.eqb_spec i (-1)) as [Hend|Hmid]; [lia|].
    assert (Hlen : (Z.to_nat i < List.length (Vector.items v))%nat)
      by (unfold Vector.size, Vector.length in *; lia).
    rewrite at_in_range.
    + cbn [Vector.items]. f_equal.
      rewrite app_nth2 by (rewrite length_firstn; lia).
      rewrite length_firstn, Nat.min_l, Nat.sub_diag by lia.
      destruct (Z.to_nat n) eqn:Hn'; [lia|reflexivity].
    + unfold Vector.size, Vector.length in *. cbn [Vector.items].
      rewrite !length_app, length_firstn, repeat_length, length_skipn. lia.
Qed.

(** X8.  [assign(n, val)] replaces the elements, whatever they were, by
    [n] copies of [val] (none for a negative [n]); so does
    [new Vector(n, val)]. *)
Theorem assign_repeat_fills :
  forall (v : Vec) (n : Z) (x : T),
    Vector.assign_repeat v n x
    = Vector.mkVector (repeat x (Z.to_nat n)) (Vector.props v)
    /\ Vector.size (Vector.assign_repeat v n x) = Z.max n 0
    /\ Vector.construct_repeat n x = Vector.mkVector (repeat x (Z.to_nat n)) [].
Proof.
  intros v n x.
  assert (Hassign : forall w : Vec,
             Vector.assign_repeat w n x
             = Vector.mkVector (repeat x (Z.to_nat n)) (Vector.props w)).
  { intros w. unfold Vector.assign_repeat, Vector.insert_repeat,
      Vector.insert_by_repeating_val.
    rewrite clear_items. cbn [Vector.end_ Vector.index].
    rewrite Z.eqb_refl. cbn [fst]. rewrite push_repeat_items. reflexivity. }
  split; [apply Hassign|]. split.
  - rewrite Hassign. unfold Vector.size, Vector.length. simpl.
    rewrite repeat_length. lia.
  - unfold Vector.construct_repeat. rewrite Hassign. reflexivity.
Qed.

(** X9.  [insert(position, first, last)] with the whole of another vector
    as the range: once the fuel covers the source, the call returns, and
    the elements of the source stand, in order, in front of the element at
    [position] (at the end for [end()]). *)
Theorem insert_range_splices :
  forall (v source : Vec) (i : Z) (extra : nat),
    -1 <= i < Vector.size v ->
    let k := Vector.insertion_point v (Vector.Iter i) in
    let grown :=
      Vector.mkVector
        (firstn k (Vector.items v) ++ Vector.items source
           ++ skipn k (Vector.items v))
        (Vector.props v) in
    Vector.insert undefined (List.length (Vector.items source) + extra) v
      (Vector.Iter i) source (Vector.begin source) (Vector.end_ source)
    = Some (Ok (grown, if i =? -1 then Vector.begin grown else Vector.Iter i)).
Proof.
  intros v source i extra Hi k grown. subst k grown. unfold Vector.insertion_point.
  cbn [Vector.index].
  unfold Vector.insert, Vector.insert_by_range. cbn [Vector.index].
  destruct (Z.eqb_spec i (-1)) as [Hend|Hmid].
  - rewrite push_range_all by lia. simpl.
    rewrite firstn_all, skipn_all, app_nil_r. reflexivity.
  - unfold Vector.splice. rewrite splice_start_in_range by lia.
    rewrite push_range_all by lia. simpl.
    unfold Vector.push_all. simpl. rewrite <- app_assoc. reflexivity.
Qed.

(** ** Clearing and constructing *)

(** X10.  [clear()] leaves no element; the vector is then [empty()],
    [begin()] is [end()], [front()] throws, and a second [clear()] changes
    nothing. *)
Theorem clear_empties :
  forall v : Vec,
    Vector.items (Vector.clear v) = []
    /\ Vector.empty (Vector.clear v) = true
    /\ Vector.begin (Vector.clear v) = Vector.end_ (Vector.clear v)
    /\ is_out_of_range (Vector.front undefined (Vector.clear v)) = true
    /\ Vector.clear (Vector.clear v) = Vector.clear v.
Proof.
  intros v. rewrite !clear_items. repeat split.
Qed.

(** X11.  A vector constructed from an array iterates as that array, and
    the copy of a vector iterates as the original: [new Vector(array)],
    [new Vector(container)]. *)
Theorem constructed_vector_iterates_as_source :
  forall (array : list T) (container : Vec) (extra : nat),
    Vector.forward undefined (List.length array + extra)
      (Vector.construct_from_array array)
    = Some (Ok array)
    /\ exists copy : Vec,
         Vector.construct_from_container undefined
           (List.length (Vector.items container) + extra) container
         = Some (Ok copy)
         /\ Vector.forward undefined
              (List.length (Vector.items container) + extra) copy
            = Some (Ok (Vector.items container)).
Proof.
  intros array container extra. split.
  - apply (forward_items undefined (Vector.construct_from_array array)).
    simpl. lia.
  - exists (Vector.mkVector (Vector.items container) []). split.
    + unfold Vector.construct_from_container. rewrite assign_all by lia.
      reflexivity.
    + apply (forward_items undefined
               (Vector.mkVector (Vector.items container) [])).
      simpl. lia.
Qed.

(** ** Iterators *)

(** X12.  On the positions of a vector, the element positions and [end()],
    [next()] and [prev()] undo each other; stepping on from [end()] leads
    to the first element, stepping back from it to the last. *)
Theorem next_and_prev_are_inverse :
  forall (v : Vec) (i : Z),
    -1 <= i < Vector.size v ->
    Vector.prev v (Vector.next v (Vector.Iter i)) = Vector.Iter i
    /\ Vector.next v (Vector.prev v (Vector.Iter i)) = Vector.Iter i.
Proof.
  intros v i Hi. unfold Vector.prev, Vector.next, Vector.end_.
  cbn [Vector.index]. split.
  - destruct (Z.geb_spec i (Vector.size v - 1)); cbn [Vector.index].
    + simpl. f_equal. lia.
    + destruct (Z.eqb_spec (i + 1) (-1)); [lia|].
      destruct (Z.ltb_spec (i + 1 - 1) 0); f_equal; lia.
  - destruct (Z.eqb_spec i (-1)); cbn [Vector.index].
    + destruct (Z.geb_spec (Vector.size v - 1) (Vector.size v - 1)); [|lia].
      f_equal. lia.
    + destruct (Z.ltb_spec (i - 1) 0); cbn [Vector.index].
      * destruct (Z.geb_spec (-1) (Vector.size v - 1)); [lia|]. f_equal. lia.
      * destruct (Z.geb_spec (i - 1) (Vector.size v - 1)); [lia|]. f_equal. lia.
Qed.

(** X13.  [advance(n)] for [n >= 0] is [n] steps of [next()], as long as
    the steps do not lead past [end()]; from [begin()] it reaches the
    element of index [n]. *)
Theorem advance_is_repeated_next :
  forall (v : Vec) (i : Z) (n : nat),
    -1 <= i < Vector.size v ->
    i + Z.of_nat n <= Vector.size v ->
    Vector.advance v (Vector.Iter i) (Z.of_nat n)
    = Nat.iter n (Vector.next v) (Vector.Iter i)
    /\ (0 <= i -> i + Z.of_nat n < Vector.size v ->
        Vector.value undefined v (Vector.advance v (Vector.Iter i) (Z.of_nat n))
        = Ok (nth (Z.to_nat i + n) (Vector.items v) undefined)).
Proof.
  intros v i n Hi Hn. split.
  - revert Hn. induction n as [|n IH]; intros Hn.
    + unfold Vector.advance. cbn [Vector.index Nat.iter nat_rect].
      change (Z.of_nat 0) with 0. rewrite Z.add_0_r.
      destruct (Z.ltb_spec i 0); cbn [orb].
      * unfold Vector.end_. f_equal. lia.
      * destruct (Z.geb_spec i (Vector.size v)); [lia|reflexivity].
    + cbn [Nat.iter nat_rect]. fold (Nat.iter n (Vector.next v) (Vector.Iter i)).
      rewrite <- IH by lia.
      unfold Vector.advance, Vector.next, Vector.end_. cbn [Vector.index].
      destruct (Z.ltb_spec (i + Z.of_nat n) 0);
        destruct (Z.geb_spec (i + Z.of_nat n) (Vector.size v));
        destruct (Z.ltb_spec (i + Z.of_nat (S n)) 0);
        destruct (Z.geb_spec (i + Z.of_nat (S n)) (Vector.size v));
        cbn [orb Vector.index]; try lia.
      * destruct (Z.geb_spec (-1) (Vector.size v - 1)); [reflexivity|lia].
      * destruct (Z.geb_spec (-1) (Vector.size v - 1)); [lia|]. f_equal. lia.
      * destruct (Z.geb_spec (i + Z.of_nat n) (Vector.size v - 1));
          [reflexivity|lia].
      * destruct (Z.geb_spec (i + Z.of_nat n) (Vector.size v - 1)); [lia|].
        f_equal. lia.
  - intros Hi0 Hin. unfold Vector.advance, Vector.value. cbn [Vector.index].
    destruct (Z.ltb_spec (i + Z.of_nat n) 0); [lia|].
    destruct (Z.geb_spec (i + Z.of_nat n) (Vector.size v)); [lia|].
    cbn [orb Vector.index]. rewrite at_in_range by lia.
    f_equal. f_equal. lia.
Qed.

(** X14.  [it.swap(obj)] on two element positions of one vector exchanges
    the two elements and leaves the size and every other element as they
    were. *)
Theorem iterator_swap_exchanges :
  forall (v : Vec) (i j : Z),
    0 <= i < Vector.size v -> 0 <= j < Vector.size v ->
    exists v' : Vec,
      Vector.iterator_swap undefined v (Vector.Iter i) (Vector.Iter j) = Ok v'
      /\ Vector.size v' = Vector.size v
      /\ Vector.at_ undefined v' i = Vector.at_ undefined v j
      /\ Vector.at_ undefined v' j = Vector.at_ undefined v i
      /\ forall k : Z, k <> i -> k <> j -> k < Vector.size v ->
           Vector.at_ undefined v' k = Vector.at_ undefined v k.
Proof.
  intros v i j Hi Hj.
  set (a := Vector.get undefined v j). set (b := Vector.get undefined v i).
  set (v1 := Vector.put undefined v i a).
  assert (Hsize1 : Vector.size v1 = Vector.size v).
  { unfold v1. rewrite size_put by lia.
    destruct (Z.eqb_spec i (Vector.size v)); [lia|reflexivity]. }
  assert (Hsize2 : Vector.size (Vector.put undefined v1 j b) = Vector.size v).
  { rewrite size_put by lia.
    destruct (Z.eqb_spec j (Vector.size v1)); lia. }
  assert (Hat : forall (w : Vec) (k : Z), k < Vector.size w ->
             Vector.at_ undefined w k = Ok (Vector.get undefined w k)).
  { intros w k Hk. unfold Vector.at_.
    destruct (Z.ltb_spec k (Vector.size w)); [reflexivity|lia]. }
  exists (Vector.put undefined v1 j b).
  split; [|split; [exact Hsize2|split; [|split]]].
  - unfold Vector.iterator_swap, Vector.value, Vector.set_value, Vector.set.
    cbn [Vector.index]. rewrite !Hat by lia. fold a b.
    unfold Vector.size in *.
    destruct (Z.gtb_spec i (Vector.length v)); [lia|]. fold v1.
    destruct (Z.gtb_spec j (Vector.length v1)); [lia|]. reflexivity.
  - rewrite !Hat by lia. f_equal.
    destruct (Z.eq_dec i j) as [Heq|Hne].
    + subst j. rewrite get_put_same by lia. reflexivity.
    + rewrite get_put_other by lia. unfold v1.
      rewrite get_put_same by lia. reflexivity.
  - rewrite !Hat by lia. f_equal. apply get_put_same. lia.
  - intros k Hki Hkj Hk. rewrite !Hat by lia. f_equal.
    rewrite get_put_other by lia. unfold v1. apply get_put_other; lia.
Qed.

End VectorUpdate.

Lemma front_and_back_of_nonempty_witness :
  Vector.items (Samples.vector_of [1; 2; 3]) <> []
  /\ Vector.front Samples.undefined (Samples.vector_of [1; 2; 3])
     = Ok (Samples.num 1)
  /\ Vector.back Samples.undefined (Samples.vector_of [1; 2; 3])
     = Ok (Samples.num 3).
Proof.
  assert (Hne : Vector.items (Samples.vector_of [1; 2; 3]) <> [])
    by (simpl; discriminate).
  split; [exact Hne|].
  exact (front_and_back_of_nonempty Samples.undefined
           (Samples.vector_of [1; 2; 3]) Hne).
Defined.

(** On [1, 2, 3], [set(1, 9)] returns [2]; then [at(1)] is [9] and the
    size is still 3. *)
Lemma set_then_at_witness :
  1 < Vector.size (Samples.vector_of [1; 2; 3])
  /\ exists v' : Vector.Vector,
       Vector.set Samples.undefined (Samples.vector_of [1; 2; 3]) 1
         (Samples.num 9)
       = Ok (v', Samples.num 2)
       /\ Vector.at_ Samples.undefined v' 1 = Ok (Samples.num 9)
       /\ Vector.size v' = 3
       /\ forall j : Z, j <> 1 -> j < 3 ->
            Vector.at_ Samples.undefined v' j
            = Vector.at_ Samples.undefined (Samples.vector_of [1; 2; 3]) j.
Proof.
  assert (Hi : 1 < Vector.size (Samples.vector_of [1; 2; 3]))
    by (vm_compute; reflexivity).
  split; [exact Hi|].
  exact (proj1 (set_then_at Samples.undefined)
           (Samples.vector_of [1; 2; 3]) 1 (Samples.num 9) Hi).
Defined.

(** On [1, 2, 3, 4, 5], erasing from position 1 to position 3 leaves
    [1, 4, 5]. *)
Lemma erase_range_removes_witness :
  0 <= 1 < Vector.size (Samples.vector_of [1; 2; 3; 4; 5])
  /\ 0 <= 3 < Vector.size (Samples.vector_of [1; 2; 3; 4; 5])
  /\ Vector.erase (Samples.vector_of [1; 2; 3; 4; 5])
       (Vector.Iter 1) (Vector.Iter 3)
     = (Samples.vector_of [1; 4; 5], Vector.Iter 1).
Proof.
  assert (Hi : 0 <= 1 < Vector.size (Samples.vector_of [1; 2; 3; 4; 5]))
    by (vm_compute; split; [discriminate|reflexivity]).
  assert (Hj : 0 <= 3 < Vector.size (Samples.vector_of [1; 2; 3; 4; 5]))
    by (vm_compute; split; [discriminate|reflexivity]).
  split; [exact Hi|]. split; [exact Hj|].
  exact (proj1 (erase_range_removes (Samples.vector_of [1; 2; 3; 4; 5])
                  1 3 Hi Hj)).
Defined.

(** On [1, 2, 3], erasing position 1 leaves [1, 3]. *)
Lemma erase_at_removes_one_witness :
  0 <= 1 < Vector.size (Samples.vector_of [1; 2; 3])
  /\ Vector.items
       (fst (Vector.erase_at (Samples.vector_of [1; 2; 3]) (Vector.Iter 1)))
     = [Samples.num 1; Samples.num 3].
Proof.
  assert (Hi : 0 <= 1 < Vector.size (Samples.vector_of [1; 2; 3]))
    by (vm_compute; split; [discriminate|reflexivity]).
  split; [exact Hi|].
  exact (proj1 (erase_at_removes_one Samples.undefined
                  (Samples.vector_of [1; 2; 3]) 1 Hi)).
Defined.

(** On [1, 2, 3], inserting two copies of [9] at position 1 gives
    [1, 9, 9, 2, 3]. *)
Lemma insert_repeat_splices_witness :
  -1 <= 1 < Vector.size (Samples.vector_of [1; 2; 3])
  /\ Vector.insert_repeat (Samples.vector_of [1; 2; 3]) (Vector.Iter 1) 2
       (Samples.num 9)
     = (Samples.vector_of [1; 9; 9; 2; 3], Vector.Iter 1).
Proof.
  assert (Hi : -1 <= 1 < Vector.size (Samples.vector_of [1; 2; 3]))
    by (vm_compute; split; [discriminate|reflexivity]).
  split; [exact Hi|].
  exact (proj1 (insert_repeat_splices Samples.undefined
                  (Samples.vector_of [1; 2; 3]) 1 2 (Samples.num 9) Hi)).
Defined.

(** On [1, 2, 3], inserting the vector [7, 8] at position 1 gives
    [1, 7, 8, 2, 3]. *)
Lemma insert_range_splices_witness :
  -1 <= 1 < Vector.size (Samples.vector_of [1; 2; 3])
  /\ Vector.insert Samples.undefined 2 (Samples.vector_of [1; 2; 3])
       (Vector.Iter 1) (Samples.vector_of [7; 8])
       (Vector.begin (Samples.vector_of [7; 8]))
       (Vector.end_ (Samples.vector_of [7; 8]))
     = Some (Ok (Samples.vector_of [1; 7; 8; 2; 3], Vector.Iter 1)).
Proof.
  assert (Hi : -1 <= 1 < Vector.size (Samples.vector_of [1; 2; 3]))
    by (vm_compute; split; [discriminate|reflexivity]).
  split; [exact Hi|].
  exact (insert_range_splices Samples.undefined
           (Samples.vector_of [1; 2; 3]) (Samples.vector_of [7; 8]) 1 0 Hi).
Defined.

(** On [1, 2, 3], from the last element: [next()] leads to [end()] and
    [prev()] back. *)
Lemma next_and_prev_are_inverse_witness :
  -1 <= 2 < Vector.size (Samples.vector_of [1; 2; 3])
  /\ Vector.prev (Samples.vector_of [1; 2; 3])
       (Vector.next (Samples.vector_of [1; 2; 3]) (Vector.Iter 2))
     = Vector.Iter 2
  /\ Vector.next (Samples.vector_of [1; 2; 3])
       (Vector.prev (Samples.vector_of [1; 2; 3]) (Vector.Iter 2))
     = Vector.Iter 2.
Proof.
  assert (Hi : -1 <= 2 < Vector.size (Samples.vector_of [1; 2; 3]))
    by (vm_compute; split; [discriminate|reflexivity]).
  split; [exact Hi|].
  exact (next_and_prev_are_inverse (Samples.vector_of [1; 2; 3]) 2 Hi).
Defined.

(** On [1, 2, 3], [begin().advance(2)] is two steps of [next()]. *)
Lemma advance_is_repeated_next_witness :
  -1 <= 0 < Vector.size (Samples.vector_of [1; 2; 3])
  /\ 0 + Z.of_nat 2 <= Vector.size (Samples.vector_of [1; 2; 3])
  /\ Vector.advance (Samples.vector_of [1; 2; 3]) (Vector.Iter 0) (Z.of_nat 2)
     = Nat.iter 2 (Vector.next (Samples.vector_of [1; 2; 3])) (Vector.Iter 0).
Proof.
  assert (Hi : -1 <= 0 < Vector.size (Samples.vector_of [1; 2; 3]))
    by (vm_compute; split; [discriminate|reflexivity]).
  assert (Hn : 0 + Z.of_nat 2 <= Vector.size (Samples.vector_of [1; 2; 3]))
    by (vm_compute; discriminate).
  split; [exact Hi|]. split; [exact Hn|].
  exact (proj1 (advance_is_repeated_next Samples.undefined
                  (Samples.vector_of [1; 2; 3]) 0 2 Hi Hn)).
Defined.

(** On [1, 2, 3], swapping the positions 0 and 2 gives [3, 2, 1]. *)
Lemma iterator_swap_exchanges_witness :
  0 <= 0 < Vector.size (Samples.vector_of [1; 2; 3])
  /\ 0 <= 2 < Vector.size (Samples.vector_of [1; 2; 3])
  /\ exists v' : Vector.Vector,
       Vector.iterator_swap Samples.undefined (Samples.vector_of [1; 2; 3])
         (Vector.Iter 0) (Vector.Iter 2)
       = Ok v'
       /\ Vector.size v' = 3
       /\ Vector.at_ Samples.undefined v' 0 = Ok (Samples.num 3)
       /\ Vector.at_ Samples.undefined v' 2 = Ok (Samples.num 1)
       /\ forall k : Z, k <> 0 -> k <> 2 -> k < 3 ->
            Vector.at_ Samples.undefined v' k
            = Vector.at_ Samples.undefined (Samples.vector_of [1; 2; 3]) k.
Proof.
  assert (Hi : 0 <= 0 < Vector.size (Samples.vector_of [1; 2; 3]))
    by (vm_compute; split; [discriminate|reflexivity]).
  assert (Hj : 0 <= 2 < Vector.size (Samples.vector_of [1; 2; 3]))
    by (vm_compute; split; [discriminate|reflexivity]).
  split; [exact Hi|]. split; [exact Hj|].
  exact (iterator_swap_exchanges Samples.undefined
           (Samples.vector_of [1; 2; 3]) 0 2 Hi Hj).
Defined.

(* ===================================================================== *)
(** * Tree containers: updates under any comparator *)
(* ===================================================================== *)

Section TreeUpdates.
Import Base.
Context {T : Type} `{IComparable T}.

Lemma multiset_place_links_one_cell (m : TreeMultiSet.TreeMultiSet T)
    (it : SetIterator T) (v : T) :
  snd (TreeMultiSet.place m it v) = It (mkCell (fresh (TreeMultiSet.data_ m)) v)
  /\ In (mkCell (fresh (TreeMultiSet.data_ m)) v)
        (TreeMultiSet.forward_cells (fst (TreeMultiSet.place m it v)))
  /\ TreeMultiSet.size (fst (TreeMultiSet.place m it v))
     = S (TreeMultiSet.size m).
Proof.
  unfold TreeMultiSet.place, TreeMultiSet.forward_cells, TreeMultiSet.size,
    list_size, list_insert. simpl.
  split; [reflexivity|]. split.
  - apply in_or_app. right. left. reflexivity.
  - rewrite length_app. simpl.
    rewrite <- (cells_split (cells (TreeMultiSet.data_ m)) it) at 3.
    rewrite length_app. lia.
Qed.

Lemma cells_until_here (a b : list (cell T)) (c : cell T) :
  NoDup (map cid (a ++ c :: b)) ->
  cells_until (a ++ c :: b) (It c) = a
  /\ cells_from (a ++ c :: b) (It c) = c :: b
  /\ next (a ++ c :: b) (It c)
     = match b with
       | [] => End
       | y :: _ => It y
       end.
Proof.
  intros Hids. split; [|split].
  - apply cells_until_at, (distinct_before _ _ _ Hids).
  - apply cells_from_at, (distinct_before _ _ _ Hids).
  - apply next_at, Hids.
Qed.

(** X15.  [TreeMultiSet.insert(v)] always links in one new cell, under
    every comparator and in every state: the iterator it returns is the
    new cell, and the size grows by one; after inserting a sequence the
    size has grown by its length. *)
Theorem multiset_insert_always_grows :
  forall (m : TreeMultiSet.TreeMultiSet T) (v : T) (vals : list T),
    snd (TreeMultiSet.insert m v) = It (mkCell (fresh (TreeMultiSet.data_ m)) v)
    /\ In (mkCell (fresh (TreeMultiSet.data_ m)) v)
          (TreeMultiSet.forward_cells (fst (TreeMultiSet.insert m v)))
    /\ TreeMultiSet.size (fst (TreeMultiSet.insert m v))
       = S (TreeMultiSet.size m)
    /\ TreeMultiSet.size (TreeMultiSet.insert_all m vals)
       = (TreeMultiSet.size m + List.length vals)%nat.
Proof.
  intros m v vals. unfold TreeMultiSet.insert, TreeMultiSet.insert_by_val.
  split; [apply multiset_place_links_one_cell|].
  split; [apply multiset_place_links_one_cell|].
  split; [apply multiset_place_links_one_cell|].
  unfold TreeMultiSet.insert_all. revert m.
  induction vals as [|x vals IH]; intros m; cbn [fold_left List.length].
  - lia.
  - rewrite IH. unfold TreeMultiSet.insert_by_val.
    rewrite (proj2 (proj2 (multiset_place_links_one_cell m _ x))). lia.
Qed.

(** X17.  [TreeSet.insert(hint, v)] with a hint that fits, the comparator
    putting the hint's value before [v] and [v] before the value of the
    next cell, links the new cell in immediately in front of the hint's
    cell: [data_.insert] is handed the hint's own position.  The new value
    then precedes a value the comparator puts before it. *)
Theorem fitting_hint_links_in_front :
  forall (s : TreeSet.TreeSet T) (a b : list (cell T)) (h : cell T) (v : T),
    TreeSet.forward_cells s = a ++ h :: b ->
    NoDup (map cid (TreeSet.forward_cells s)) ->
    TreeSet.has s v = false ->
    TreeSet.key_comp s (cval h) v = true ->
    match b with
    | [] => True
    | n :: _ => TreeSet.key_comp s v (cval n) = true
    end ->
    exists s' : TreeSet.TreeSet T,
      TreeSet.insert_hint s (It h) v
      = Some (s', It (mkCell (fresh (TreeSet.data_ s)) v))
      /\ TreeSet.forward_cells s'
         = a ++ mkCell (fresh (TreeSet.data_ s)) v :: h :: b.
Proof.
  intros s a b h v Hsplit Hids Hhas Hhint Hnext.
  unfold TreeSet.forward_cells in *. rewrite Hsplit in Hids.
  destruct (cells_until_here a b h Hids) as [Huntil [Hfrom Hnxt]].
  unfold TreeSet.insert_hint, TreeSet.insert_by_hint. rewrite Hhas.
  unfold TreeSet.key_comp in *. rewrite Hhint. unfold TreeSet.it_next.
  rewrite Hsplit, Hnxt.
  assert (Hfits : match match b with [] => End | y :: _ => It y end with
                  | End => true
                  | It next_cell =>
                      key_comp (TreeSet.tree_ s) v (cval next_cell)
                  end = true)
    by (destruct b; [reflexivity|exact Hnext]).
  rewrite Hfits. cbn [andb].
  unfold TreeSet.place, TreeSet.handle_insert, list_insert.
  rewrite Hsplit, Huntil, Hfrom. eexists. split; reflexivity.
Qed.

(** X18.  [TreeMultiSet.insert(hint, v)] with a hint that fits, its value
    before or equal to [v] and [v] before or equal to the value of the next
    cell, links the new cell in immediately in front of the hint's cell. *)
Theorem multiset_fitting_hint_links_in_front :
  forall (m : TreeMultiSet.TreeMultiSet T) (a b : list (cell T)) (h : cell T)
         (v : T),
    TreeMultiSet.forward_cells m = a ++ h :: b ->
    NoDup (map cid (TreeMultiSet.forward_cells m)) ->
    TreeMultiSet.key_comp m (cval h) v || equal_to (cval h) v = true ->
    match b with
    | [] => True
    | n :: _ => TreeMultiSet.key_comp m v (cval n) || equal_to v (cval n) = true
    end ->
    TreeMultiSet.insert_by_hint m (It h) v
    = Some (TreeMultiSet.mkSet
              (mkList (a ++ mkCell (fresh (TreeMultiSet.data_ m)) v :: h :: b)
                      (S (fresh (TreeMultiSet.data_ m))))
              (tree_insert (TreeMultiSet.tree_ m)
                 (It (mkCell (fresh (TreeMultiSet.data_ m)) v))),
            It (mkCell (fresh (TreeMultiSet.data_ m)) v)).
Proof.
  intros m a b h v Hsplit Hids Hhint Hnext.
  unfold TreeMultiSet.forward_cells in *. rewrite Hsplit in Hids.
  destruct (cells_until_here a b h Hids) as [Huntil [Hfrom Hnxt]].
  unfold TreeMultiSet.insert_by_hint.
  unfold TreeMultiSet.key_comp in *. rewrite Hhint.
  unfold TreeMultiSet.it_next. rewrite Hsplit, Hnxt.
  assert (Hfits : match match b with [] => End | y :: _ => It y end with
                  | End => true
                  | It next_cell =>
                      key_comp (TreeMultiSet.tree_ m) v (cval next_cell)
                      || equal_to v (cval next_cell)
                  end = true)
    by (destruct b; [reflexivity|exact Hnext]).
  rewrite Hfits. cbn [andb].
  unfold TreeMultiSet.place, TreeMultiSet.handle_insert, list_insert.
  rewrite Hsplit, Huntil, Hfrom. reflexivity.
Qed.

End TreeUpdates.

(** On the set [{1, 3}] with the hint at [1], the hinted insert of [2]
    gives the list [2, 1, 3]. *)
Lemma fitting_hint_links_in_front_witness :
  TreeSet.forward_cells (Samples.set_of [1; 3])
  = [] ++ Base.mkCell 0 1 :: [Base.mkCell 1 3]
  /\ NoDup (map Base.cid (TreeSet.forward_cells (Samples.set_of [1; 3])))
  /\ TreeSet.has (Samples.set_of [1; 3]) 2 = false
  /\ TreeSet.key_comp (Samples.set_of [1; 3]) 1 2 = true
  /\ TreeSet.key_comp (Samples.set_of [1; 3]) 2 3 = true
  /\ exists s' : TreeSet.TreeSet Z,
       TreeSet.insert_hint (Samples.set_of [1; 3])
         (Base.It (Base.mkCell 0 1)) 2
       = Some (s', Base.It (Base.mkCell 2 2))
       /\ TreeSet.forward_cells s'
          = [Base.mkCell 2 2; Base.mkCell 0 1; Base.mkCell 1 3].
Proof.
  assert (Hsplit : TreeSet.forward_cells (Samples.set_of [1; 3])
                   = [] ++ Base.mkCell 0 1 :: [Base.mkCell 1 3])
    by reflexivity.
  assert (Hids : NoDup (map Base.cid
                          (TreeSet.forward_cells (Samples.set_of [1; 3])))).
  { simpl. constructor; [simpl; intros [Hx|[]]; discriminate|].
    constructor; [simpl; tauto|constructor]. }
  assert (Hhas : TreeSet.has (Samples.set_of [1; 3]) 2 = false)
    by reflexivity.
  assert (Hhint : TreeSet.key_comp (Samples.set_of [1; 3]) 1 2 = true)
    by reflexivity.
  assert (Hnext : TreeSet.key_comp (Samples.set_of [1; 3]) 2 3 = true)
    by reflexivity.
  split; [exact Hsplit|]. split; [exact Hids|]. split; [exact Hhas|].
  split; [exact Hhint|]. split; [exact Hnext|].
  exact (fitting_hint_links_in_front (Samples.set_of [1; 3]) []
           [Base.mkCell 1 3] (Base.mkCell 0 1) 2
           Hsplit Hids Hhas Hhint Hnext).
Defined.

(** On the multiset [{1, 3}] with the hint at [1], the hinted insert of
    [2] gives the list [2, 1, 3]. *)
Lemma multiset_fitting_hint_links_in_front_witness :
  TreeMultiSet.forward_cells (Samples.multiset_of [1; 3])
  = [] ++ Base.mkCell 0 1 :: [Base.mkCell 1 3]
  /\ NoDup (map Base.cid
              (TreeMultiSet.forward_cells (Samples.multiset_of [1; 3])))
  /\ TreeMultiSet.key_comp (Samples.multiset_of [1; 3]) 1 2 || equal_to 1 2
     = true
  /\ TreeMultiSet.key_comp (Samples.multiset_of [1; 3]) 2 3 || equal_to 2 3
     = true
  /\ option_map (fun r => TreeMultiSet.forward (fst r))
       (TreeMultiSet.insert_by_hint (Samples.multiset_of [1; 3])
          (Base.It (Base.mkCell 0 1)) 2)
     = Some [2; 1; 3].
Proof.
  assert (Hsplit : TreeMultiSet.forward_cells (Samples.multiset_of [1; 3])
                   = [] ++ Base.mkCell 0 1 :: [Base.mkCell 1 3])
    by reflexivity.
  assert (Hids : NoDup (map Base.cid
                          (TreeMultiSet.forward_cells
                             (Samples.multiset_of [1; 3])))).
  { simpl. constructor; [simpl; intros [Hx|[]]; discriminate|].
    constructor; [simpl; tauto|constructor]. }
  assert (Hhint : TreeMultiSet.key_comp (Samples.multiset_of [1; 3]) 1 2
                  || equal_to 1 2 = true)
    by reflexivity.
  assert (Hnext : TreeMultiSet.key_comp (Samples.multiset_of [1; 3]) 2 3
                  || equal_to 2 3 = true)
    by reflexivity.
  split; [exact Hsplit|]. split; [exact Hids|]. split; [exact Hhint|].
  split; [exact Hnext|].
  rewrite (multiset_fitting_hint_links_in_front (Samples.multiset_of [1; 3])
             [] [Base.mkCell 1 3] (Base.mkCell 0 1) 2
             Hsplit Hids Hhint Hnext).
  reflexivity.
Defined.

(* ===================================================================== *)
(** * Tree containers under the default comparator: iteration and lookup *)
(* ===================================================================== *)

Lemma numbers_totally_ordered : totally_ordered Z.
Proof.
  unfold totally_ordered. simpl. repeat split.
  - apply Z.ltb_irrefl.
  - intros a b c. rewrite !Z.ltb_lt. lia.
  - intros a b. rewrite !Z.ltb_ge. lia.
  - apply Z.eqb_eq.
  - apply Z.eqb_eq.
Qed.

(** X19.  A [TreeSet] built with the default comparator, over elements
    that [std.less] orders totally and [std.equal_to] compares by equality:
    after inserting the elements of a sequence [S] one by one, forward
    iteration yields strictly increasing values, and these are exactly the
    members of [S], each once. *)
Theorem set_round_trip_is_strictly_ascending :
  forall (T : Type) (C : IComparable T),
    totally_ordered T ->
    forall (S : list T),
      Shape.strictly_ascending
        (TreeSet.forward (TreeSet.insert_all TreeSet.construct S))
      /\ forall x : T,
           In x (TreeSet.forward (TreeSet.insert_all TreeSet.construct S))
           <-> In x S.
Proof.
  intros T C [Hirrefl [Htrans [Htotal Heq]]] S. split.
  - assert (Hshape :
      Shape.set_shape
        (TreeSet.data_ (TreeSet.insert_all TreeSet.construct S))
        (TreeSet.tree_ (TreeSet.insert_all TreeSet.construct S)))
      by (apply set_shape_built; assumption).
    exact (proj1 (proj2 Hshape)).
  - assert (Hvals := set_of_values Hirrefl Htrans Htotal Heq S).
    exact (proj2 Hvals).
Qed.

(** The set built from [3, 1, 4, 1, 5] iterates as [1, 3, 4, 5]. *)
Lemma set_round_trip_is_strictly_ascending_witness :
  totally_ordered Z
  /\ TreeSet.forward (Samples.set_of [3; 1; 4; 1; 5]) = [1; 3; 4; 5]
  /\ Shape.strictly_ascending
       (TreeSet.forward (Samples.set_of [3; 1; 4; 1; 5]))
  /\ forall x : Z,
       In x (TreeSet.forward (Samples.set_of [3; 1; 4; 1; 5]))
       <-> In x [3; 1; 4; 1; 5].
Proof.
  split; [exact numbers_totally_ordered|]. split; [reflexivity|].
  exact (set_round_trip_is_strictly_ascending Z number_comparable
           numbers_totally_ordered [3; 1; 4; 1; 5]).
Defined.

(** X20.  Under the same conditions the order of insertion and repetitions
    do not matter: two sequences with the same members build sets that
    iterate alike. *)
Theorem sets_of_same_members_iterate_alike :
  forall (T : Type) (C : IComparable T),
    totally_ordered T ->
    forall (S1 S2 : list T),
      (forall x : T, In x S1 <-> In x S2) ->
      TreeSet.forward (TreeSet.insert_all TreeSet.construct S1)
      = TreeSet.forward (TreeSet.insert_all TreeSet.construct S2).
Proof.
  intros T C [Hirrefl [Htrans [Htotal Heq]]] S1 S2 Hsame.
  assert (Hshape : forall S,
    Shape.set_shape
      (TreeSet.data_ (TreeSet.insert_all TreeSet.construct S))
      (TreeSet.tree_ (TreeSet.insert_all TreeSet.construct S)))
    by (intros S; apply set_shape_built; assumption).
  assert (Hvals := set_of_values Hirrefl Htrans Htotal Heq).
  apply (strictly_ascending_unique Hirrefl Htrans).
  - exact (proj1 (proj2 (Hshape S1))).
  - exact (proj1 (proj2 (Hshape S2))).
  - intros x. rewrite (proj2 (Hvals S1) x), (proj2 (Hvals S2) x). apply Hsame.
Qed.

(** [3, 1, 2] and [2, 2, 1, 3] build sets that iterate alike. *)
Lemma sets_of_same_members_iterate_alike_witness :
  totally_ordered Z
  /\ (forall x : Z, In x [3; 1; 2] <-> In x [2; 2; 1; 3])
  /\ TreeSet.forward (Samples.set_of [3; 1; 2])
     = TreeSet.forward (Samples.set_of [2; 2; 1; 3]).
Proof.
  assert (Hsame : forall x : Z, In x [3; 1; 2] <-> In x [2; 2; 1; 3])
    by (intros x; simpl; tauto).
  split; [exact numbers_totally_ordered|]. split; [exact Hsame|].
  exact (sets_of_same_members_iterate_alike Z number_comparable
           numbers_totally_ordered [3; 1; 2] [2; 2; 1; 3] Hsame).
Defined.

(** X21.  Under the same conditions the tree index of a [TreeSet] mirrors
    its list after any sequence of [insert(v)]: the in-order traversal of
    the tree visits the cells forward iteration visits, in the same
    order. *)
Theorem set_tree_mirrors_list :
  forall (T : Type) (C : IComparable T),
    totally_ordered T ->
    forall (S : list T),
      Base.inorder
        (Base.root_ (TreeSet.tree_ (TreeSet.insert_all TreeSet.construct S)))
      = TreeSet.forward_cells (TreeSet.insert_all TreeSet.construct S).
Proof.
  intros T C [Hirrefl [Htrans [Htotal Heq]]] S.
  assert (Hshape :
    Shape.set_shape
      (TreeSet.data_ (TreeSet.insert_all TreeSet.construct S))
      (TreeSet.tree_ (TreeSet.insert_all TreeSet.construct S)))
    by (apply set_shape_built; assumption).
  exact (proj2 (proj2 Hshape)).
Qed.

(** The tree of the set built from [3, 1, 2] holds, in order, the cells of
    [1], [2] and [3]. *)
Lemma set_tree_mirrors_list_witness :
  totally_ordered Z
  /\ Base.inorder (Base.root_ (TreeSet.tree_ (Samples.set_of [3; 1; 2])))
     = TreeSet.forward_cells (Samples.set_of [3; 1; 2]).
Proof.
  split; [exact numbers_totally_ordered|].
  exact (set_tree_mirrors_list Z number_comparable numbers_totally_ordered
           [3; 1; 2]).
Defined.

(** X22.  Under the same conditions [TreeSet.find(v)] returns the iterator
    to the cell holding [v] when [v] was inserted, and [end()] otherwise;
    [has(v)] tells the two cases apart. *)
Theorem set_find_returns_the_cell :
  forall (T : Type) (C : IComparable T),
    totally_ordered T ->
    forall (S : list T) (v : T),
      let s := TreeSet.insert_all TreeSet.construct S in
      (In v S ->
       exists c : Base.cell T,
         TreeSet.find s v = Base.It c
         /\ In c (TreeSet.forward_cells s) /\ Base.cval c = v)
      /\ (~ In v S -> TreeSet.find s v = TreeSet.end_ s)
      /\ (TreeSet.has s v = true <-> In v S).
Proof.
  intros T C [Hirrefl [Htrans [Htotal Heq]]] S v s.
  destruct (set_of_values Hirrefl Htrans Htotal Heq S) as [Hwf Hvals].
  fold s in Hwf, Hvals.
  assert (Hfind := set_find_in_well_formed Hirrefl Htrans Htotal Heq s v Hwf).
  assert (Hhas := set_has_in_well_formed Hirrefl Htrans Htotal Heq s v Hwf).
  destruct Hfind as [Hheld Hmissing]. split; [|split].
  - intros Hin. apply Hheld, Hvals, Hin.
  - intros Hout. apply Hmissing. intros Hin. apply Hout, Hvals, Hin.
  - rewrite Hhas. apply Hvals.
Qed.

(** In the set built from [3, 1, 4], [find(4)] is the cell of [4] and
    [find(2)] is [end()]. *)
Lemma set_find_returns_the_cell_witness :
  totally_ordered Z
  /\ TreeSet.find (Samples.set_of [3; 1; 4]) 4 = Base.It (Base.mkCell 2 4)
  /\ TreeSet.find (Samples.set_of [3; 1; 4]) 2 = Base.End
  /\ (TreeSet.has (Samples.set_of [3; 1; 4]) 2 = true <-> In 2 [3; 1; 4]).
Proof.
  split; [exact numbers_totally_ordered|]. split; [reflexivity|].
  split; [reflexivity|].
  exact (proj2 (proj2 (set_find_returns_the_cell Z number_comparable
                         numbers_totally_ordered [3; 1; 4] 2))).
Defined.

(** X23.  A [TreeMultiSet] built with the default comparator, under the
    same conditions: [find(v)] returns the iterator to the first cell, in
    iteration order, that holds [v] when [v] was inserted, and [end()]
    otherwise. *)
Theorem multiset_find_returns_first_cell :
  forall (T : Type) (C : IComparable T),
    totally_ordered T ->
    forall (S : list T) (v : T),
      let m := TreeMultiSet.insert_all TreeMultiSet.construct S in
      (In v S ->
       exists (a : list (Base.cell T)) (c : Base.cell T)
              (b : list (Base.cell T)),
         TreeMultiSet.forward_cells m = a ++ c :: b
         /\ TreeMultiSet.find m v = Base.It c
         /\ Base.cval c = v
         /\ Forall (fun x => less (Base.cval x) v = true) a)
      /\ (~ In v S -> TreeMultiSet.find m v = TreeMultiSet.end_ m).
Proof.
  intros T C [Hirrefl [Htrans [Htotal Heq]]] S v m.
  destruct (multiset_of_values Hirrefl Htrans Htotal Heq S) as [Hwf Hvals].
  fold m in Hwf, Hvals.
  assert (Hfind :=
    multiset_find_in_well_formed Hirrefl Htrans Htotal Heq m v Hwf).
  destruct Hfind as [Hheld Hmissing]. split.
  - intros Hin. apply Hheld, Hvals, Hin.
  - intros Hout. apply Hmissing. intros Hin. apply Hout, Hvals, Hin.
Qed.

(** In the multiset built from [2, 1, 2, 3], [find(2)] is the cell the
    first [2] went into, the second cell in iteration order. *)
Lemma multiset_find_returns_first_cell_witness :
  totally_ordered Z
  /\ In 2 [2; 1; 2; 3]
  /\ TreeMultiSet.find (Samples.multiset_of [2; 1; 2; 3]) 2
     = Base.It (Base.mkCell 0 2)
  /\ exists (a : list (Base.cell Z)) (c : Base.cell Z)
            (b : list (Base.cell Z)),
       TreeMultiSet.forward_cells (Samples.multiset_of [2; 1; 2; 3])
       = a ++ c :: b
       /\ TreeMultiSet.find (Samples.multiset_of [2; 1; 2; 3]) 2 = Base.It c
       /\ Base.cval c = 2
       /\ Forall (fun x => less (Base.cval x) 2 = true) a.
Proof.
  assert (Hin : In 2 [2; 1; 2; 3]) by (simpl; auto).
  split; [exact numbers_totally_ordered|]. split; [exact Hin|].
  split; [reflexivity|].
  exact (proj1 (multiset_find_returns_first_cell Z number_comparable
                  numbers_totally_ordered [2; 1; 2; 3] 2) Hin).
Defined.





(** X26.  [clear()] empties every tree container and keeps its
    comparator: afterwards the size is 0, [begin()] is [end()] and [find]
    returns [end()] for every value.  A cleared container that uses the
    default comparator, over elements that [std.less] orders totally and
    [std.equal_to] compares by equality, can be filled again and then
    iterates like a new one: a [TreeSet] like the set built from the same
    sequence, a [TreeMultiSet] as the stable sort of the sequence. *)
Theorem clear_then_reuse :
  forall (T : Type) (C : IComparable T)
         (s : TreeSet.TreeSet T) (m : TreeMultiSet.TreeMultiSet T),
    (TreeSet.size (TreeSet.clear s) = O
     /\ TreeSet.begin (TreeSet.clear s) = TreeSet.end_ (TreeSet.clear s)
     /\ TreeSet.key_comp (TreeSet.clear s) = TreeSet.key_comp s
     /\ (forall v : T, TreeSet.find (TreeSet.clear s) v = Base.End)
     /\ (totally_ordered T ->
         TreeSet.key_comp s = less ->
         forall S : list T,
           TreeSet.forward (TreeSet.insert_all (TreeSet.clear s) S)
           = TreeSet.forward (TreeSet.insert_all TreeSet.construct S)))
    /\ (TreeMultiSet.size (TreeMultiSet.clear m) = O
        /\ TreeMultiSet.begin (TreeMultiSet.clear m)
           = TreeMultiSet.end_ (TreeMultiSet.clear m)
        /\ TreeMultiSet.key_comp (TreeMultiSet.clear m)
           = TreeMultiSet.key_comp m
        /\ (forall v : T,
              TreeMultiSet.find (TreeMultiSet.clear m) v = Base.End)
        /\ (totally_ordered T ->
            TreeMultiSet.key_comp m = less ->
            forall S : list T,
              TreeMultiSet.forward
                (TreeMultiSet.insert_all (TreeMultiSet.clear m) S)
              = sort_stable less S)).
Proof.
  intros T C s m. split.
  - split; [reflexivity|]. split; [reflexivity|]. split; [reflexivity|].
    split; [reflexivity|].
    intros [Hirrefl [Htrans [Htotal Heq]]] Hs S.
    apply (set_after_clear Hirrefl Htrans Htotal Heq s S Hs).
  - split; [reflexivity|]. split; [reflexivity|]. split; [reflexivity|].
    split; [reflexivity|].
    intros [Hirrefl [Htrans [Htotal Heq]]] Hm S.
    apply (multiset_after_clear Hirrefl Htrans Htotal Heq m S Hm).
Qed.

(** The set [{1, 2, 3}], cleared and filled with [5, 4, 5], iterates as
    [4, 5]; the multiset as [4, 5, 5]. *)
Lemma clear_then_reuse_witness :
  totally_ordered Z
  /\ TreeSet.key_comp (Samples.set_of [1; 2; 3]) = less
  /\ TreeMultiSet.key_comp (Samples.multiset_of [1; 2; 3]) = less
  /\ TreeSet.forward
       (TreeSet.insert_all (TreeSet.clear (Samples.set_of [1; 2; 3]))
          [5; 4; 5])
     = [4; 5]
  /\ TreeMultiSet.forward
       (TreeMultiSet.insert_all
          (TreeMultiSet.clear (Samples.multiset_of [1; 2; 3])) [5; 4; 5])
     = [4; 5; 5].
Proof.
  assert (Hs : TreeSet.key_comp (Samples.set_of [1; 2; 3]) = less)
    by reflexivity.
  assert (Hm : TreeMultiSet.key_comp (Samples.multiset_of [1; 2; 3]) = less)
    by reflexivity.
  split; [exact numbers_totally_ordered|]. split; [exact Hs|].
  split; [exact Hm|].
  destruct (clear_then_reuse Z number_comparable
              (Samples.set_of [1; 2; 3]) (Samples.multiset_of [1; 2; 3]))
    as [[_ [_ [_ [_ Hset]]]] [_ [_ [_ [_ Hmulti]]]]].
  split.
  - exact (Hset numbers_totally_ordered Hs [5; 4; 5]).
  - exact (Hmulti numbers_totally_ordered Hm [5; 4; 5]).
Defined.
